(** * Subgraph matcher (torch/csrc/jit/subgraph_matcher.cpp)

    A shallow embedding of the JIT subgraph matcher and the properties of
    its pattern validator, matcher core and search driver. *)

From stdpp Require Import gmap strings list fin_maps fin_sets.

(** ** The dataflow graph interface *)

(** Nodes, values and blocks are handled through pointers in the source
    ([const Node*], [const Value*], [const Block*]); pointer identity is
    the identity of the entity.  A pointer is a number here. *)
Abbreviation NodeId := nat (only parsing).
Abbreviation ValueId := nat (only parsing).
Abbreviation BlockId := nat (only parsing).

(** Modelled from the spec: the operator kind of a node ([Symbol] of the
    graph IR, whose declaration is not part of this file's sources); a
    tagged enumeration with the distinguished placeholder kind
    [prim::Param]. *)
Inductive Symbol : Type :=
  | prim_Param
  | prim_Return
  | op (name : string).

#[global] Instance Symbol_eq_dec : EqDecision Symbol.
Proof. solve_decision. Defined.

(** A use of a value: the consuming node and the input position. *)
Definition Use : Type := NodeId * nat.

(** Modelled from the spec: the read-only accessors of the graph IR
    ([Graph], [Block], [Node], [Value] are declared outside this file's
    sources).  Dereferencing a pointer always succeeds in the source, so
    every accessor is a total function of the pointer.
    [end_node b] is the node obtained by dereferencing [nodes().end()] of
    block [b]: the exit marker of the block, which the iteration over
    [nodes()] itself does not yield. *)
Record Graph : Type := {
  block : BlockId;                       (* Graph::block() *)
  nodes : BlockId → list NodeId;         (* Block::nodes(), in sequence order *)
  end_node : BlockId → NodeId;           (* *(Block::nodes().end()) *)
  kind : NodeId → Symbol;                (* Node::kind() *)
  inputs : NodeId → list ValueId;        (* Node::inputs() *)
  outputs : NodeId → list ValueId;       (* Node::outputs() *)
  owningBlock : NodeId → BlockId;        (* Node::owningBlock() *)
  blocks : NodeId → list BlockId;        (* Node::blocks() *)
  node : ValueId → NodeId;               (* Value::node() *)
  uses : ValueId → list Use              (* Value::uses() *)
}.

(** [Graph::nodes()] is the node list of the root block. *)
Definition graph_nodes (g : Graph) : list NodeId := nodes g (block g).

(** [a[i]] on an array reference; the source only indexes in range. *)
Definition at_index (l : list nat) (i : nat) : nat := nth i l 0.

(** ** Outcomes *)

(** A call returns, trips an [AT_ASSERT], or (in the model only) runs out
    of recursion budget. *)
Inductive result (A : Type) : Type :=
  | Returned (a : A)
  | AssertionFailure
  | OutOfFuel.
Arguments Returned {A} a.
Arguments AssertionFailure {A}.
Arguments OutOfFuel {A}.

(** ** Pattern validator *)

(** The [for] loop of [patternGraphIsValid]: the first node owning a
    sub-block makes it return false. *)
Fixpoint no_node_has_blocks (g : Graph) (ns : list NodeId) : bool :=
  match ns with
  | [] => true
  | n :: ns' =>
      if negb (bool_decide (blocks g n = [])) then false
      else no_node_has_blocks g ns'
  end.

Definition patternGraphIsValid (pattern : Graph) : bool :=
  if negb (no_node_has_blocks pattern (graph_nodes pattern)) then false
  else
    let bottom_node := end_node pattern (block pattern) in
    if negb (length (inputs pattern bottom_node) =? 1) then false
    else true.

(** ** Matcher core *)

(** The mutable members of [SubgraphMatcher]. *)
Record Matcher : Type := {
  nodes_map_ : gmap NodeId NodeId;
  values_map_ : gmap ValueId ValueId;
  anchor_ : NodeId
}.

Definition set_value (v1 v2 : ValueId) (m : Matcher) : Matcher :=
  {| nodes_map_ := nodes_map_ m;
     values_map_ := <[v1 := v2]> (values_map_ m);
     anchor_ := anchor_ m |}.

Definition set_node (n1 n2 : NodeId) (m : Matcher) : Matcher :=
  {| nodes_map_ := <[n1 := n2]> (nodes_map_ m);
     values_map_ := values_map_ m;
     anchor_ := anchor_ m |}.

(** The member functions thread the matcher state and return a flag. *)
Definition M : Type := Matcher → result (bool * Matcher).

(** [for (i = first; i < first + count; i++) if (!body(i)) return false;]
    the loop returns true when it runs to its end. *)
Fixpoint for_all (body : nat → M) (first count : nat) : M :=
  fun m =>
    match count with
    | 0 => Returned (true, m)
    | S count' =>
        match body first m with
        | Returned (true, m') => for_all body (S first) count' m'
        | Returned (false, m') => Returned (false, m')
        | AssertionFailure => AssertionFailure
        | OutOfFuel => OutOfFuel
        end
    end.

Section Matcher.
(** [pattern_] and [graph_] of [SubgraphMatcher]. *)
Variables pattern graph : Graph.

Fixpoint matchValues (fuel : nat) (v1 v2 : ValueId) (m : Matcher)
    {struct fuel} : result (bool * Matcher) :=
  match fuel with
  | 0 => OutOfFuel
  | S fuel' =>
      match values_map_ m !! v1 with
      | Some v => Returned (bool_decide (v = v2), m)
      | None =>
          if negb (length (uses pattern v1) =? length (uses graph v2))
             && negb (bool_decide (node graph v2 = anchor_ m))
             && negb (bool_decide (kind pattern (node pattern v1) = prim_Param))
          then Returned (false, m)
          else matchNodes fuel' (node pattern v1) (node graph v2)
                          (set_value v1 v2 m)
      end
  end
with matchNodes (fuel : nat) (n1 n2 : NodeId) (m : Matcher)
    {struct fuel} : result (bool * Matcher) :=
  match fuel with
  | 0 => OutOfFuel
  | S fuel' =>
      match nodes_map_ m !! n1 with
      | Some n => Returned (bool_decide (n = n2), m)
      | None =>
          if bool_decide (kind pattern n1 = prim_Param)
          then Returned (true, m)
          else if negb (bool_decide (owningBlock graph n2 =
                                     owningBlock graph (anchor_ m)))
          then Returned (false, m)
          else if negb (bool_decide (kind pattern n1 = kind graph n2))
                  || negb (length (outputs pattern n1) =?
                           length (outputs graph n2))
                  || negb (length (inputs pattern n1) =?
                           length (inputs graph n2))
          then Returned (false, m)
          else
            match for_all
                    (fun i => matchValues fuel'
                                (at_index (outputs pattern n1) i)
                                (at_index (outputs graph n2) i))
                    0 (length (outputs pattern n1)) (set_node n1 n2 m) with
            | Returned (true, m') =>
                for_all
                  (fun i => matchValues fuel'
                              (at_index (inputs pattern n1) i)
                              (at_index (inputs graph n2) i))
                  0 (length (inputs pattern n1)) m'
            | r => r
            end
      end
  end.

(** [clear()] both maps and install the anchor. *)
Definition reset (anchor : NodeId) (m : Matcher) : Matcher :=
  {| nodes_map_ := ∅; values_map_ := ∅; anchor_ := anchor |}.

Definition matchesSubgraphFromAnchorNode (fuel : nat) (anchor : NodeId)
    (m : Matcher) : result (bool * Matcher) :=
  let m0 := reset anchor m in
  let bottom_node := end_node pattern (block pattern) in
  if negb (length (inputs pattern bottom_node) =? 1) then AssertionFailure
  else
    let bottom_node := node pattern (at_index (inputs pattern bottom_node) 0) in
    match matchNodes fuel bottom_node anchor m0 with
    | Returned (false, m') => Returned (false, m')
    | Returned (true, m') => Returned (true, m')
    | AssertionFailure => AssertionFailure
    | OutOfFuel => OutOfFuel
    end.
End Matcher.

(** The guards and loops of the matcher, named. *)
Section Guards.
Variables pattern graph : Graph.

(** The use-count test of [matchValues]. *)
Definition use_count_rejects (m : Matcher) (v1 v2 : ValueId) : bool :=
  negb (length (uses pattern v1) =? length (uses graph v2))
  && negb (bool_decide (node graph v2 = anchor_ m))
  && negb (bool_decide (kind pattern (node pattern v1) = prim_Param)).

(** The structural test of [matchNodes]. *)
Definition structure_rejects (n1 n2 : NodeId) : bool :=
  negb (bool_decide (kind pattern n1 = kind graph n2))
  || negb (length (outputs pattern n1) =? length (outputs graph n2))
  || negb (length (inputs pattern n1) =? length (inputs graph n2)).

Definition match_outputs (fuel : nat) (n1 n2 : NodeId) : M :=
  for_all (fun i => matchValues pattern graph fuel
                      (at_index (outputs pattern n1) i)
                      (at_index (outputs graph n2) i))
          0 (length (outputs pattern n1)).

Definition match_inputs (fuel : nat) (n1 n2 : NodeId) : M :=
  for_all (fun i => matchValues pattern graph fuel
                      (at_index (inputs pattern n1) i)
                      (at_index (inputs graph n2) i))
          0 (length (inputs pattern n1)).
End Guards.

(** ** Search driver *)

(** An element of the result vector. *)
Record Match : Type := {
  anchor : NodeId;
  nodes_map : gmap NodeId NodeId;
  values_map : gmap ValueId ValueId
}.

(** [{n, m.nodes_map(), m.values_map()}]: the match pushed for anchor
    [n] when the attempt leaves the matcher in state [m]. *)
Definition report (n : NodeId) (m : Matcher) : Match :=
  {| anchor := n; nodes_map := nodes_map_ m; values_map := values_map_ m |}.

(** The state of the driver's loops: the matcher [m], the vector
    [matches] and the stack [blocks_to_visit] (top first). *)
Record Driver : Type := {
  drv_m : Matcher;
  matches : list Match;
  blocks_to_visit : list BlockId
}.

(** [for (subblock : n->blocks()) blocks_to_visit.push(subblock);] *)
Definition push_all (bs : list BlockId) (stack : list BlockId) : list BlockId :=
  fold_left (fun s b => b :: s) bs stack.

Section Driver.
Variables pattern graph : Graph.

(** The body of the loop over [block->nodes()]. *)
Fixpoint visit_nodes (fuel : nat) (ns : list NodeId) (d : Driver)
    : result Driver :=
  match ns with
  | [] => Returned d
  | n :: ns' =>
      match matchesSubgraphFromAnchorNode pattern graph fuel n (drv_m d) with
      | Returned (b, m') =>
          visit_nodes fuel ns'
            {| drv_m := m';
               matches := if b then matches d ++ [report n m']
                          else matches d;
               blocks_to_visit :=
                 push_all (blocks graph n) (blocks_to_visit d) |}
      | AssertionFailure => AssertionFailure
      | OutOfFuel => OutOfFuel
      end
  end.

(** [while (!blocks_to_visit.empty())]; [steps] bounds the iterations. *)
Fixpoint visit_blocks (steps fuel : nat) (d : Driver) : result Driver :=
  match blocks_to_visit d with
  | [] => Returned d
  | b :: rest =>
      match steps with
      | 0 => OutOfFuel
      | S steps' =>
          match visit_nodes fuel (nodes graph b)
                  {| drv_m := drv_m d; matches := matches d;
                     blocks_to_visit := rest |} with
          | Returned d' => visit_blocks steps' fuel d'
          | AssertionFailure => AssertionFailure
          | OutOfFuel => OutOfFuel
          end
      end
  end.

(** The matcher's members are uninitialised until the first attempt
    resets them; [m_init] stands for that arbitrary content. *)
Definition m_init : Matcher :=
  {| nodes_map_ := ∅; values_map_ := ∅; anchor_ := 0 |}.

Definition findPatternMatches (fuel : nat) : result (list Match) :=
  if negb (patternGraphIsValid pattern) then AssertionFailure
  else
    match visit_blocks fuel fuel
            {| drv_m := m_init; matches := [];
               blocks_to_visit := [block graph] |} with
    | Returned d => Returned (matches d)
    | AssertionFailure => AssertionFailure
    | OutOfFuel => OutOfFuel
    end.
End Driver.

(** ** The block structure of a well-formed target graph *)

(** Blocks own nodes and nodes own blocks: ownership is a finite tree.
    A [BlockTree] is the unfolding of that ownership from one block. *)
Inductive BlockTree : Type :=
  | BlockT (b : BlockId) (ns : list NodeTree)
with NodeTree : Type :=
  | NodeT (n : NodeId) (bs : list BlockTree).

Definition bt_id (t : BlockTree) : BlockId := let 'BlockT b _ := t in b.
Definition nt_id (t : NodeTree) : NodeId := let 'NodeT n _ := t in n.
Definition nt_children (t : NodeTree) : list BlockTree :=
  let 'NodeT _ bs := t in bs.

(** Number of blocks of a tree. *)
Fixpoint bt_size (t : BlockTree) : nat :=
  match t with
  | BlockT _ ns => S (sum_list_with nt_size ns)
  end
with nt_size (t : NodeTree) : nat :=
  match t with
  | NodeT _ bs => sum_list_with bt_size bs
  end.

(** Every node of a tree, nested ones included. *)
Fixpoint bt_nodes (t : BlockTree) : list NodeId :=
  match t with
  | BlockT _ ns => ns ≫= nt_nodes
  end
with nt_nodes (t : NodeTree) : list NodeId :=
  match t with
  | NodeT n bs => n :: (bs ≫= bt_nodes)
  end.

(** [block_shaped g t]: the accessors of [g] unfold to the tree [t]. *)
Inductive block_shaped (g : Graph) : BlockTree → Prop :=
  | shaped_block b ns :
      nodes g b = nt_id <$> ns →
      Forall (node_shaped g) ns →
      block_shaped g (BlockT b ns)
with node_shaped (g : Graph) : NodeTree → Prop :=
  | shaped_node n bs :
      blocks g n = bt_id <$> bs →
      Forall (block_shaped g) bs →
      node_shaped g (NodeT n bs).

(** ** Notions used by the statements *)

Section Notions.
Variables pattern graph : Graph.

(** The two assignments of the matcher, [values_map_[v1] = v2] and
    [nodes_map_[n1] = n2], each under the conditions of the path that
    leads to it.  [later m m'] holds when [m'] arises from [m] by a
    sequence of such assignments: the states of one anchor attempt that
    come after [m]. *)
Inductive later (m : Matcher) : Matcher → Prop :=
  | later_now : later m m
  | later_value m1 v1 v2 :
      later m m1 →
      values_map_ m1 !! v1 = None →
      use_count_rejects pattern graph m1 v1 v2 = false →
      later m (set_value v1 v2 m1)
  | later_node m1 n1 n2 :
      later m m1 →
      nodes_map_ m1 !! n1 = None →
      kind pattern n1 ≠ prim_Param →
      owningBlock graph n2 = owningBlock graph (anchor_ m1) →
      structure_rejects pattern graph n1 n2 = false →
      later m (set_node n1 n2 m1).

(** Every target node of the node map lies in the anchor's block. *)
Definition in_anchor_block (m : Matcher) : Prop :=
  ∀ pn tn, nodes_map_ m !! pn = Some tn →
           owningBlock graph tn = owningBlock graph (anchor_ m).

(** No placeholder node is a key of the node map. *)
Definition no_param_key (m : Matcher) : Prop :=
  ∀ pn tn, nodes_map_ m !! pn = Some tn → kind pattern pn ≠ prim_Param.

(** The node the exit node's input comes from: where matching starts. *)
Definition pattern_root : NodeId :=
  node pattern (at_index (inputs pattern (end_node pattern (block pattern))) 0).

(** The pattern nodes a successful attempt compares: the root, and the
    defining nodes of the outputs and inputs of every compared node that
    is not a placeholder. *)
Inductive reached : NodeId → Prop :=
  | reached_root : reached pattern_root
  | reached_output pn v :
      reached pn → kind pattern pn ≠ prim_Param →
      v ∈ outputs pattern pn → reached (node pattern v)
  | reached_input pn v :
      reached pn → kind pattern pn ≠ prim_Param →
      v ∈ inputs pattern pn → reached (node pattern v).

(** The entry of pattern node [pn] is complete in [m]: the node has a
    target, and its outputs and inputs have the target's outputs and
    inputs as entries, position by position. *)
Definition node_matched (m : Matcher) (pn : NodeId) : Prop :=
  ∃ tn, nodes_map_ m !! pn = Some tn
        ∧ (∀ i, i < length (outputs pattern pn) →
             values_map_ m !! at_index (outputs pattern pn) i =
             Some (at_index (outputs graph tn) i))
        ∧ (∀ i, i < length (inputs pattern pn) →
             values_map_ m !! at_index (inputs pattern pn) i =
             Some (at_index (inputs graph tn) i)).

(** The entry of pattern value [pv] is complete in [m]: the value has a
    target, and its defining node is a placeholder or has the target's
    defining node as entry. *)
Definition value_matched (m : Matcher) (pv : ValueId) : Prop :=
  ∃ tv, values_map_ m !! pv = Some tv
        ∧ (kind pattern (node pattern pv) = prim_Param
           ∨ nodes_map_ m !! node pattern pv = Some (node graph tv)).

(** [m'] comes later than [m], and every entry it has beyond those of [m]
    is complete. *)
Definition completes (m m' : Matcher) : Prop :=
  later m m'
  ∧ (∀ pv, values_map_ m !! pv = None → is_Some (values_map_ m' !! pv) →
           value_matched m' pv)
  ∧ (∀ pn, nodes_map_ m !! pn = None → is_Some (nodes_map_ m' !! pn) →
           node_matched m' pn).

(** A finite pattern: finitely many nodes and values, closed under the
    references the matcher follows. *)
Record finite_pattern (PN : gset NodeId) (PV : gset ValueId) : Prop := {
  fp_exit : end_node pattern (block pattern) ∈ PN;
  fp_inputs : ∀ n v, n ∈ PN → v ∈ inputs pattern n → v ∈ PV;
  fp_outputs : ∀ n v, n ∈ PN → v ∈ outputs pattern n → v ∈ PV;
  fp_node : ∀ v, v ∈ PV → node pattern v ∈ PN
}.

(** How many pattern nodes and values are still without an entry. *)
Definition unmapped (PN : gset NodeId) (PV : gset ValueId) (m : Matcher) : nat :=
  size (PV ∖ dom (values_map_ m)) + size (PN ∖ dom (nodes_map_ m)).

(** The pattern is a placeholder [p] alone, whose single output [v]
    feeds the exit node: the node list of the pattern holds no other node
    than [p]. *)
Definition param_only (p : NodeId) (v : ValueId) : Prop :=
  (∀ n, n ∈ graph_nodes pattern → n = p)
  ∧ kind pattern p = prim_Param
  ∧ blocks pattern p = []
  ∧ outputs pattern p = [v]
  ∧ node pattern v = p
  ∧ inputs pattern (end_node pattern (block pattern)) = [v].
End Notions.

(** [mt] is what a successful attempt at some anchor leaves behind. *)
Definition from_attempt (pattern graph : Graph) (fuel : nat) (mt : Match) : Prop :=
  ∃ m m', matchesSubgraphFromAnchorNode pattern graph fuel (anchor mt) m
          = Returned (true, m')
          ∧ mt = report (anchor mt) m'.

(** What the attempt at anchor [n] contributes to the result vector. *)
Definition attempts (pattern graph : Graph) (fuel : nat) (n : NodeId)
    : list Match :=
  match matchesSubgraphFromAnchorNode pattern graph fuel n
          (m_init) with
  | Returned (true, m') => [report n m']
  | _ => []
  end.

(** A check that the listed nodes and values are closed under the
    references of a graph. *)
Definition closed_lists (g : Graph) (ns : list NodeId) (vs : list ValueId)
    : bool :=
  bool_decide (end_node g (block g) ∈ ns)
  && forallb (fun n => forallb (fun v => bool_decide (v ∈ vs)) (inputs g n)
                       && forallb (fun v => bool_decide (v ∈ vs)) (outputs g n))
             ns
  && forallb (fun v => bool_decide (node g v ∈ ns)) vs.

(** ** What a match holds *)

Section MatchNotions.
Variables pattern graph : Graph.

(** Every entry of the node map relates nodes of the same kind, with as
    many outputs and as many inputs. *)
Definition same_structure (m : Matcher) : Prop :=
  ∀ pn tn, nodes_map_ m !! pn = Some tn →
           kind pattern pn = kind graph tn
           ∧ length (outputs pattern pn) = length (outputs graph tn)
           ∧ length (inputs pattern pn) = length (inputs graph tn).

(** Every entry of the value map passed the use-count test. *)
Definition use_counts_respected (m : Matcher) : Prop :=
  ∀ pv tv, values_map_ m !! pv = Some tv →
           length (uses pattern pv) = length (uses graph tv)
           ∨ node graph tv = anchor_ m
           ∨ kind pattern (node pattern pv) = prim_Param.

(** A pattern value the matcher can come to: an output or an input of a
    reached node that is not a placeholder. *)
Definition value_reached (pv : ValueId) : Prop :=
  ∃ pn, reached pattern pn ∧ kind pattern pn ≠ prim_Param
        ∧ (pv ∈ outputs pattern pn ∨ pv ∈ inputs pattern pn).

(** The keys of both maps are reached. *)
Definition keys_reached (m : Matcher) : Prop :=
  (∀ pn tn, nodes_map_ m !! pn = Some tn → reached pattern pn)
  ∧ (∀ pv tv, values_map_ m !! pv = Some tv → value_reached pv).

(** Both maps relate every key to itself. *)
Definition identity_maps (m : Matcher) : Prop :=
  (∀ pn tn, nodes_map_ m !! pn = Some tn → tn = pn)
  ∧ (∀ pv tv, values_map_ m !! pv = Some tv → tv = pv).
End MatchNotions.

(** ** Well-formed graphs *)

(** The def-use bookkeeping of the IR: an output of a node is defined by
    that node, an input of a node is an output of its defining node, and
    the use list of a value is the duplicate-free list of the input slots
    that hold it. *)
Record def_use_consistent (g : Graph) : Prop := {
  du_outputs : ∀ n v, v ∈ outputs g n → node g v = n;
  du_defined : ∀ c v, v ∈ inputs g c → v ∈ outputs g (node g v);
  du_uses : ∀ v c k, (c, k) ∈ uses g v ↔ inputs g c !! k = Some v;
  du_nodup : ∀ v, NoDup (uses g v)
}.

(** No node depends on itself: the defining node of an input ranks below
    the node that takes it. *)
Definition acyclic (g : Graph) : Prop :=
  ∃ rank : NodeId → nat,
    ∀ c v, v ∈ inputs g c → rank (node g v) < rank c.

(** Every consumer of a value of the matched part of a pattern belongs to
    the matched part, or is the exit node: no output of a reached node
    that is not a placeholder is used by a node the matcher never comes
    to. *)
Definition no_dead_consumers (p : Graph) : Prop :=
  ∀ pn v c k,
    reached p pn → kind p pn ≠ prim_Param →
    v ∈ outputs p pn → (c, k) ∈ uses p v →
    c = end_node p (block p) ∨ (reached p c ∧ kind p c ≠ prim_Param).

(** ** Concrete graphs *)

(** Graphs written as tables: one row per node, one row per block.  The
    defining node of a value and its uses are derived from the rows, so a
    value's use-count is the number of input slots that reference it. *)
Module Tables.
Record NodeRow : Type := {
  r_id : NodeId;
  r_kind : Symbol;
  r_inputs : list ValueId;
  r_outputs : list ValueId;
  r_block : BlockId;
  r_blocks : list BlockId
}.

Record BlockRow : Type := {
  b_id : BlockId;
  b_nodes : list NodeId;
  b_end : NodeId
}.

Definition no_row : NodeRow :=
  {| r_id := 0; r_kind := prim_Return; r_inputs := []; r_outputs := [];
     r_block := 0; r_blocks := [] |}.

Definition row (rows : list NodeRow) (n : NodeId) : NodeRow :=
  default no_row (list_find (fun r => r_id r = n) rows ≫= (fun p => Some p.2)).

Definition block_row (brows : list BlockRow) (b : BlockId) : BlockRow :=
  default {| b_id := b; b_nodes := []; b_end := 0 |}
          (list_find (fun r => b_id r = b) brows ≫= (fun p => Some p.2)).

Definition defining (rows : list NodeRow) (v : ValueId) : NodeId :=
  default 0 (list_find (fun r => v ∈ r_outputs r) rows
               ≫= (fun p => Some (r_id p.2))).

Definition uses_in (v : ValueId) (r : NodeRow) : list Use :=
  omap id (imap (fun i x => if bool_decide (x = v) then Some (r_id r, i)
                            else None) (r_inputs r)).

Definition table (root : BlockId) (brows : list BlockRow)
    (rows : list NodeRow) : Graph :=
  {| block := root;
     nodes := fun b => b_nodes (block_row brows b);
     end_node := fun b => b_end (block_row brows b);
     kind := fun n => r_kind (row rows n);
     inputs := fun n => r_inputs (row rows n);
     outputs := fun n => r_outputs (row rows n);
     owningBlock := fun n => r_block (row rows n);
     blocks := fun n => r_blocks (row rows n);
     node := defining rows;
     uses := fun v => concat (map (uses_in v) rows) |}.
End Tables.

Module Examples.
Import Tables.

Definition N (id : NodeId) (k : Symbol) (ins outs : list ValueId)
    (b : BlockId) (bs : list BlockId) : NodeRow :=
  {| r_id := id; r_kind := k; r_inputs := ins; r_outputs := outs;
     r_block := b; r_blocks := bs |}.
Definition B (id : BlockId) (ns : list NodeId) (e : NodeId) : BlockRow :=
  {| b_id := id; b_nodes := ns; b_end := e |}.

(** [Param -> Exit]: the placeholder alone. *)
Definition pat_param : Graph :=
  table 0 [B 0 [1] 2]
    [N 1 prim_Param [] [1] 0 [];
     N 2 prim_Return [1] [] 0 []].

(** [Param -> Add -> Exit]; both inputs of [Add] are pattern inputs. *)
Definition pat_add : Graph :=
  table 0 [B 0 [2] 3]
    [N 1 prim_Param [] [1; 2] 0 [];
     N 2 (op "aten::add") [1; 2] [3] 0 [];
     N 3 prim_Return [3] [] 0 []].

(** [Const(5) -> Add(x, 5) -> Mul(_, 2)]. *)
Definition tgt_add_mul : Graph :=
  table 0 [B 0 [11; 12; 13; 14] 15]
    [N 10 prim_Param [] [10] 0 [];
     N 11 (op "prim::Constant") [] [11] 0 [];
     N 12 (op "aten::add") [10; 11] [12] 0 [];
     N 13 (op "prim::Constant") [] [13] 0 [];
     N 14 (op "aten::mul") [12; 13] [14] 0 [];
     N 15 prim_Return [14] [] 0 []].

(** A target with a loop body: node 21 owns block 1, which holds 22 and
    23; 23 owns block 2, which holds 24. *)
Definition tgt_nested : Graph :=
  table 0 [B 0 [20; 21; 25] 29; B 1 [22; 23] 28; B 2 [24] 27]
    [N 20 (op "prim::Constant") [] [20] 0 [];
     N 21 (op "prim::Loop") [20] [21] 0 [1];
     N 22 (op "aten::neg") [20] [22] 1 [];
     N 23 (op "prim::If") [22] [23] 1 [2];
     N 24 (op "aten::neg") [22] [24] 2 [];
     N 25 (op "aten::neg") [21] [25] 0 [];
     N 27 prim_Return [24] [] 2 [];
     N 28 prim_Return [23] [] 1 [];
     N 29 prim_Return [25] [] 0 []].

Definition tree_nested : BlockTree :=
  BlockT 0 [NodeT 20 [];
            NodeT 21 [BlockT 1 [NodeT 22 [];
                                 NodeT 23 [BlockT 2 [NodeT 24 []]]]];
            NodeT 25 []].

(** [Param -> Neg -> Exit]. *)
Definition pat_neg : Graph :=
  table 0 [B 0 [2] 3]
    [N 1 prim_Param [] [1] 0 [];
     N 2 (op "aten::neg") [1] [2] 0 [];
     N 3 prim_Return [2] [] 0 []].

(** [Param -> Neg -> Relu -> Exit]: value 2 is interior, with one use. *)
Definition pat_chain : Graph :=
  table 0 [B 0 [2; 3] 4]
    [N 1 prim_Param [] [1] 0 [];
     N 2 (op "aten::neg") [1] [2] 0 [];
     N 3 (op "aten::relu") [2] [3] 0 [];
     N 4 prim_Return [3] [] 0 []].

(** [Neg -> Relu], where the output of [Relu] (value 12) has three uses. *)
Definition tgt_boundary : Graph :=
  table 0 [B 0 [11; 12; 13; 14; 15; 16] 17]
    [N 10 prim_Param [] [10] 0 [];
     N 11 (op "aten::neg") [10] [11] 0 [];
     N 12 (op "aten::relu") [11] [12] 0 [];
     N 13 (op "aten::sin") [12] [13] 0 [];
     N 14 (op "aten::cos") [12] [14] 0 [];
     N 15 (op "aten::add") [12; 13] [15] 0 [];
     N 16 (op "aten::mul") [14; 15] [16] 0 [];
     N 17 prim_Return [16] [] 0 []].

(** [Neg -> Relu], where the output of [Neg] (value 11) has three uses. *)
Definition tgt_interior : Graph :=
  table 0 [B 0 [11; 12; 13; 14; 15; 16] 17]
    [N 10 prim_Param [] [10] 0 [];
     N 11 (op "aten::neg") [10] [11] 0 [];
     N 12 (op "aten::relu") [11] [12] 0 [];
     N 13 (op "aten::sin") [11] [13] 0 [];
     N 14 (op "aten::cos") [11] [14] 0 [];
     N 15 (op "aten::add") [13; 14] [15] 0 [];
     N 16 (op "aten::mul") [12; 15] [16] 0 [];
     N 17 prim_Return [16] [] 0 []].

(** Two constants feeding one [Add]; each constant also has a consumer
    whose result is dropped. *)
Definition pat_two_consts : Graph :=
  table 0 [B 0 [1; 2; 3; 4; 5] 6]
    [N 1 (op "prim::Constant") [] [1] 0 [];
     N 2 (op "prim::Constant") [] [2] 0 [];
     N 3 (op "aten::add") [1; 2] [3] 0 [];
     N 4 (op "aten::neg") [1] [4] 0 [];
     N 5 (op "aten::neg") [2] [5] 0 [];
     N 6 prim_Return [3] [] 0 []].

(** One constant added to itself. *)
Definition tgt_double : Graph :=
  table 0 [B 0 [11; 12] 13]
    [N 11 (op "prim::Constant") [] [11] 0 [];
     N 12 (op "aten::add") [11; 11] [12] 0 [];
     N 13 prim_Return [12] [] 0 []].

(** An [Add] with a third input. *)
Definition tgt_add3 : Graph :=
  table 0 [B 0 [11; 12] 13]
    [N 10 prim_Param [] [10] 0 [];
     N 11 (op "prim::Constant") [] [11] 0 [];
     N 12 (op "aten::add") [10; 11; 11] [12] 0 [];
     N 13 prim_Return [12] [] 0 []].

(** A node that consumes its own output: [x = add_(x, p)]. *)
Definition pat_cycle : Graph :=
  table 0 [B 0 [2] 3]
    [N 1 prim_Param [] [1] 0 [];
     N 2 (op "aten::add_") [2; 1] [2] 0 [];
     N 3 prim_Return [2] [] 0 []].

Definition tgt_cycle : Graph :=
  table 0 [B 0 [11; 12] 13]
    [N 11 (op "prim::Constant") [] [11] 0 [];
     N 12 (op "aten::add_") [12; 11] [12] 0 [];
     N 13 prim_Return [12] [] 0 []].

(** A target whose root block is empty. *)
Definition tgt_empty : Graph :=
  table 0 [B 0 [] 11]
    [N 10 prim_Param [] [10] 0 [];
     N 11 prim_Return [10] [] 0 []].

(** The state of an attempt at [a] once pattern node [n1] is recorded for
    [a] itself. *)
Definition at_root (n1 a : NodeId) : Matcher :=
  set_node n1 a {| nodes_map_ := ∅; values_map_ := ∅; anchor_ := a |}.
(** The match of [pat_add] in [tgt_add_mul]. *)
Definition add_match : Match :=
  {| anchor := 12;
     nodes_map := {[2 := 12]};
     values_map := {[1 := 10; 2 := 11; 3 := 12]} |}.

(** The match of [pat_neg] at node [a] of [tgt_nested], whose input is
    value [x]. *)
Definition neg_match (a x : NodeId) : Match :=
  report a (set_value 1 x (set_value 2 a (at_root 2 a))).
(** The match of [pat_chain] in [tgt_boundary]. *)
Definition chain_match : Match :=
  {| anchor := 12;
     nodes_map := {[2 := 11; 3 := 12]};
     values_map := {[1 := 10; 2 := 11; 3 := 12]} |}.
(** The match of [tgt_double], taken as a pattern, in itself. *)
Definition double_match : Match :=
  {| anchor := 12;
     nodes_map := {[11 := 11; 12 := 12]};
     values_map := {[11 := 11; 12 := 12]} |}.
End Examples.

(** * Properties *)

(** ** The counted loop *)

Section ForAll.
Variable R : relation Matcher.
Variable Q : nat → Matcher → Prop.
Hypothesis R_refl : ∀ m, R m m.
Hypothesis R_trans : ∀ m1 m2 m3, R m1 m2 → R m2 m3 → R m1 m3.
Hypothesis Q_stable : ∀ i m m', Q i m → R m m' → Q i m'.

(** A loop whose iterations are related by a preorder [R] is related by
    [R]; when it runs to completion every iteration's postcondition [Q]
    holds at the end, provided [Q] is stable under [R]. *)
Lemma for_all_spec (body : nat → M) count :
  ∀ first m b m',
    (∀ i m0 b0 m0', first ≤ i < first + count →
       body i m0 = Returned (b0, m0') → R m0 m0' ∧ (b0 = true → Q i m0')) →
    for_all body first count m = Returned (b, m') →
    R m m' ∧ (b = true → ∀ i, first ≤ i < first + count → Q i m').
Proof.
  induction count as [|count IH]; intros first m b m' Hbody Hrun; simpl in Hrun.
  - inversion Hrun; subst. split; [apply R_refl | intros _ i Hi; lia].
  - destruct (body first m) as [[[] m1]| |] eqn:Hfirst; try discriminate.
    + destruct (Hbody first m true m1 ltac:(lia) Hfirst) as [HR HQ].
      destruct (IH (S first) m1 b m') as [HR' HQ']; [|exact Hrun|].
      { intros i m0 b0 m0' Hi. apply Hbody. lia. }
      split; [eauto|].
      intros Hb i Hi. destruct (decide (i = first)) as [->|Hne].
      * eapply Q_stable; [apply HQ; reflexivity | exact HR'].
      * apply HQ'; [exact Hb | lia].
    + inversion Hrun; subst.
      destruct (Hbody first m false m' ltac:(lia) Hfirst) as [HR _].
      split; [exact HR | discriminate].
Qed.
End ForAll.

(** The same for a loop that ran to completion, where only successful
    iterations need to be related. *)
Lemma for_all_true (R : relation Matcher) (Q : nat → Matcher → Prop)
    (body : nat → M) count :
  (∀ m, R m m) →
  (∀ m1 m2 m3, R m1 m2 → R m2 m3 → R m1 m3) →
  (∀ i m m', Q i m → R m m' → Q i m') →
  ∀ first m m',
    (∀ i m0 m0', first ≤ i < first + count →
       body i m0 = Returned (true, m0') → R m0 m0' ∧ Q i m0') →
    for_all body first count m = Returned (true, m') →
    R m m' ∧ ∀ i, first ≤ i < first + count → Q i m'.
Proof.
  intros R_refl R_trans Q_stable.
  induction count as [|count IH]; intros first m m' Hbody Hrun; simpl in Hrun.
  - inversion Hrun; subst. split; [apply R_refl | intros i Hi; lia].
  - destruct (body first m) as [[[] m1]| |] eqn:Hfirst; try discriminate.
    destruct (Hbody first m m1 ltac:(lia) Hfirst) as [HR HQ].
    destruct (IH (S first) m1 m') as [HR' HQ']; [|exact Hrun|].
    { intros i m0 m0' Hi. apply Hbody. lia. }
    split; [eauto|].
    intros i Hi. destruct (decide (i = first)) as [->|Hne].
    + eapply Q_stable; [exact HQ | exact HR'].
    + apply HQ'. lia.
Qed.

(** A loop of terminating iterations terminates; [μ] is a measure that no
    iteration increases and [k] a bound under which iterations return. *)
Lemma for_all_returns (μ : Matcher → nat) (k : nat) (body : nat → M) count :
  ∀ first m,
    (∀ i m0, first ≤ i < first + count → μ m0 ≤ k →
       ∃ b0 m0', body i m0 = Returned (b0, m0') ∧ μ m0' ≤ μ m0) →
    μ m ≤ k →
    ∃ b m', for_all body first count m = Returned (b, m') ∧ μ m' ≤ μ m.
Proof.
  induction count as [|count IH]; intros first m Hbody Hm; simpl.
  - eauto.
  - destruct (Hbody first m ltac:(lia) Hm) as ([] & m1 & -> & Hle).
    + destruct (IH (S first) m1) as (b & m' & Hrun & Hle'); [|lia|].
      { intros i m0 Hi. apply Hbody. lia. }
      exists b, m'. split; [exact Hrun | lia].
    + eauto.
Qed.

(** A loop whose iterations trip no assertion trips none. *)
Lemma for_all_no_assert (body : nat → M) count :
  (∀ i m, body i m ≠ AssertionFailure) →
  ∀ first m, for_all body first count m ≠ AssertionFailure.
Proof.
  intros Hbody. induction count as [|count IH]; intros first m; simpl; [done|].
  destruct (body first m) as [[[] m1]| |] eqn:Hfirst; try done.
  by destruct (Hbody first m).
Qed.

(** ** One step of the matcher *)

Section Steps.
Variables pattern graph : Graph.

Lemma matchValues_S fuel v1 v2 m :
  matchValues pattern graph (S fuel) v1 v2 m =
  match values_map_ m !! v1 with
  | Some v => Returned (bool_decide (v = v2), m)
  | None =>
      if use_count_rejects pattern graph m v1 v2 then Returned (false, m)
      else matchNodes pattern graph fuel (node pattern v1) (node graph v2)
                      (set_value v1 v2 m)
  end.
Proof. reflexivity. Qed.

Lemma matchNodes_S fuel n1 n2 m :
  matchNodes pattern graph (S fuel) n1 n2 m =
  match nodes_map_ m !! n1 with
  | Some n => Returned (bool_decide (n = n2), m)
  | None =>
      if bool_decide (kind pattern n1 = prim_Param) then Returned (true, m)
      else if negb (bool_decide (owningBlock graph n2 =
                                 owningBlock graph (anchor_ m)))
      then Returned (false, m)
      else if structure_rejects pattern graph n1 n2 then Returned (false, m)
      else match match_outputs pattern graph fuel n1 n2 (set_node n1 n2 m) with
           | Returned (true, m') => match_inputs pattern graph fuel n1 n2 m'
           | r => r
           end
  end.
Proof. reflexivity. Qed.

Lemma use_count_rejects_false m v1 v2 :
  use_count_rejects pattern graph m v1 v2 = false ↔
  length (uses pattern v1) = length (uses graph v2)
  ∨ node graph v2 = anchor_ m
  ∨ kind pattern (node pattern v1) = prim_Param.
Proof.
  unfold use_count_rejects.
  rewrite !andb_false_iff, !negb_false_iff, Nat.eqb_eq, !bool_decide_eq_true.
  tauto.
Qed.

Lemma structure_rejects_false n1 n2 :
  structure_rejects pattern graph n1 n2 = false ↔
  kind pattern n1 = kind graph n2
  ∧ length (outputs pattern n1) = length (outputs graph n2)
  ∧ length (inputs pattern n1) = length (inputs graph n2).
Proof.
  unfold structure_rejects.
  rewrite !orb_false_iff, !negb_false_iff, !Nat.eqb_eq, bool_decide_eq_true.
  tauto.
Qed.
End Steps.

(** ** States of one attempt *)

Section Later.
Variables pattern graph : Graph.
Local Abbreviation later := (later pattern graph).

Lemma later_trans m1 m2 m3 : later m1 m2 → later m2 m3 → later m1 m3.
Proof.
  intros H12 H23. induction H23.
  - exact H12.
  - apply later_value; assumption.
  - apply later_node; assumption.
Qed.

(** Every returning call of the matcher leads to a later state. *)
Lemma calls_later fuel :
  (∀ v1 v2 m b m',
      matchValues pattern graph fuel v1 v2 m = Returned (b, m') → later m m')
  ∧ (∀ n1 n2 m b m',
      matchNodes pattern graph fuel n1 n2 m = Returned (b, m') → later m m').
Proof.
  induction fuel as [|fuel [IHv IHn]]; [split; intros; discriminate|].
  assert (Hloop : ∀ (f g : nat → nat) count first m b m',
             for_all (fun i => matchValues pattern graph fuel (f i) (g i))
                     first count m = Returned (b, m') → later m m').
  { intros f g count first m b m' Hrun.
    apply (for_all_spec later (fun _ _ => True)) in Hrun.
    - apply Hrun.
    - intros; apply later_now.
    - apply later_trans.
    - trivial.
    - intros i m0 b0 m0' _ Hcall. split; [eapply IHv; exact Hcall | trivial]. }
  split.
  - intros v1 v2 m b m'. rewrite matchValues_S.
    destruct (values_map_ m !! v1) eqn:Hv1.
    { intros [= _ <-]. apply later_now. }
    destruct (use_count_rejects pattern graph m v1 v2) eqn:Huse.
    { intros [= _ <-]. apply later_now. }
    intros Hcall. apply IHn in Hcall.
    eapply later_trans; [|exact Hcall].
    apply later_value; [apply later_now | assumption..].
  - intros n1 n2 m b m'. rewrite matchNodes_S.
    destruct (nodes_map_ m !! n1) eqn:Hn1.
    { intros [= _ <-]. apply later_now. }
    case_bool_decide as Hparam.
    { intros [= _ <-]. apply later_now. }
    case_bool_decide as Hblock; simpl.
    2:{ intros [= _ <-]. apply later_now. }
    destruct (structure_rejects pattern graph n1 n2) eqn:Hstruct.
    { intros [= _ <-]. apply later_now. }
    assert (Hset : later m (set_node n1 n2 m)).
    { apply later_node; [apply later_now | assumption..]. }
    unfold match_outputs, match_inputs.
    destruct (for_all _ 0 (length (outputs pattern n1)) (set_node n1 n2 m))
      as [[[] m1]| |] eqn:Houts; try discriminate.
    + intros Hins. apply Hloop in Houts, Hins.
      eauto using later_trans.
    + intros [= _ <-]. apply Hloop in Houts. eauto using later_trans.
Qed.

(** The matcher core contains no assertion. *)
Lemma calls_no_assert fuel :
  (∀ v1 v2 m, matchValues pattern graph fuel v1 v2 m ≠ AssertionFailure)
  ∧ (∀ n1 n2 m, matchNodes pattern graph fuel n1 n2 m ≠ AssertionFailure).
Proof.
  induction fuel as [|fuel [IHv IHn]]; [by split|].
  split.
  - intros v1 v2 m. rewrite matchValues_S.
    destruct (values_map_ m !! v1); [done|].
    destruct (use_count_rejects pattern graph m v1 v2); [done|]. apply IHn.
  - intros n1 n2 m. rewrite matchNodes_S.
    destruct (nodes_map_ m !! n1); [done|].
    destruct (bool_decide _); [done|].
    destruct (negb _); [done|].
    destruct (structure_rejects pattern graph n1 n2); [done|].
    unfold match_outputs, match_inputs.
    destruct (for_all _ 0 (length (outputs pattern n1)) (set_node n1 n2 m))
      as [[[] m1]| |] eqn:Houts; try done.
    + apply for_all_no_assert. intros i m0. apply IHv.
    + by eapply for_all_no_assert in Houts; [|intros i m0; apply IHv].
Qed.

Lemma later_anchor m m' : later m m' → anchor_ m' = anchor_ m.
Proof. induction 1; simpl; congruence. Qed.

(** Entries are only ever added under fresh keys. *)
Lemma later_maps m m' :
  later m m' →
  nodes_map_ m ⊆ nodes_map_ m' ∧ values_map_ m ⊆ values_map_ m'.
Proof.
  induction 1 as [|m1 v1 v2 _ [IHn IHv] Hfresh _
                  |m1 n1 n2 _ [IHn IHv] Hfresh _ _ _]; simpl.
  - split; reflexivity.
  - split; [exact IHn|].
    etrans; [exact IHv|]. by apply insert_subseteq.
  - split; [|exact IHv].
    etrans; [exact IHn|]. by apply insert_subseteq.
Qed.

Lemma later_in_anchor_block m m' :
  later m m' → in_anchor_block graph m → in_anchor_block graph m'.
Proof.
  induction 1 as [|m1 v1 v2 _ IH _ _|m1 n1 n2 _ IH Hfresh _ Hblock _];
    intros Hm; [exact Hm|exact (IH Hm)|].
  intros pn tn. unfold in_anchor_block in IH. simpl.
  destruct (decide (n1 = pn)) as [->|Hne].
  - rewrite lookup_insert_eq. intros [= <-]. exact Hblock.
  - rewrite lookup_insert_ne by exact Hne. apply (IH Hm).
Qed.

Lemma later_no_param_key m m' :
  later m m' → no_param_key pattern m → no_param_key pattern m'.
Proof.
  induction 1 as [|m1 v1 v2 _ IH _ _|m1 n1 n2 _ IH Hfresh Hparam _ _];
    intros Hm; [exact Hm|exact (IH Hm)|].
  intros pn tn. simpl.
  destruct (decide (n1 = pn)) as [->|Hne].
  - intros _. exact Hparam.
  - rewrite lookup_insert_ne by exact Hne. apply (IH Hm).
Qed.
End Later.

(** ** Pattern validator *)

Lemma no_node_has_blocks_spec (g : Graph) (ns : list NodeId) :
  no_node_has_blocks g ns = true ↔ ∀ n, n ∈ ns → blocks g n = [].
Proof.
  induction ns as [|n ns IH]; simpl.
  - split; [intros _ n Hn; inversion Hn | reflexivity].
  - case_bool_decide as Hn; simpl.
    + rewrite IH. split.
      * intros Hall n' Hin. apply elem_of_cons in Hin as [->|Hin]; auto.
      * intros Hall n' Hin. apply Hall. by apply elem_of_cons; right.
    + split; [discriminate|].
      intros Hall. destruct Hn. apply Hall. by apply elem_of_cons; left.
Qed.

Lemma valid_pattern_spec (pattern : Graph) :
  patternGraphIsValid pattern = true ↔
  (∀ n, n ∈ graph_nodes pattern → blocks pattern n = [])
  ∧ length (inputs pattern (end_node pattern (block pattern))) = 1.
Proof.
  unfold patternGraphIsValid.
  rewrite <- no_node_has_blocks_spec.
  destruct (no_node_has_blocks pattern (graph_nodes pattern)); simpl.
  - destruct (Nat.eqb_spec
                (length (inputs pattern (end_node pattern (block pattern)))) 1);
      simpl; intuition congruence.
  - intuition congruence.
Qed.

(** C2: [patternGraphIsValid] returns true exactly when no node of the
    pattern's root block owns a sub-block and the exit node has exactly
    one input; it returns false when either check fails. *)
Theorem patternGraphIsValid_iff (pattern : Graph) :
  patternGraphIsValid pattern = true ↔
  (∀ n, n ∈ graph_nodes pattern → blocks pattern n = [])
  ∧ length (inputs pattern (end_node pattern (block pattern))) = 1.
Proof.
  unfold patternGraphIsValid. split.
  - destruct (no_node_has_blocks pattern (graph_nodes pattern)) eqn:Hflat;
      simpl; [|discriminate].
    destruct (Nat.eqb_spec
                (length (inputs pattern (end_node pattern (block pattern)))) 1)
      as [Hone|Hmore]; simpl; [|discriminate].
    intros _. split; [by apply no_node_has_blocks_spec | exact Hone].
  - intros [Hflat Hone].
    apply no_node_has_blocks_spec in Hflat. rewrite Hflat, Hone. reflexivity.
Qed.

(** ** Single rules of the matcher core *)

Section Rules.
Variables pattern graph : Graph.

(** C3: for a pattern value [pv] without an entry whose use-count differs
    from that of [tv], [matchValues] fails unless [tv] is defined by the
    anchor or [pv] by a placeholder; in those two cases the use-counts are
    ignored and the defining nodes decide, so an output of the anchor with
    extra uses is accepted once the anchor is recorded for [pv]'s node. *)
Theorem matchValues_use_count_rule (fuel : nat) (pv tv : ValueId) (m : Matcher) :
  values_map_ m !! pv = None →
  length (uses pattern pv) ≠ length (uses graph tv) →
  (node graph tv ≠ anchor_ m →
   kind pattern (node pattern pv) ≠ prim_Param →
   matchValues pattern graph (S fuel) pv tv m = Returned (false, m))
  ∧ (node graph tv = anchor_ m ∨ kind pattern (node pattern pv) = prim_Param →
     matchValues pattern graph (S fuel) pv tv m =
     matchNodes pattern graph fuel (node pattern pv) (node graph tv)
                (set_value pv tv m))
  ∧ (node graph tv = anchor_ m →
     nodes_map_ m !! node pattern pv = Some (anchor_ m) →
     matchValues pattern graph (S (S fuel)) pv tv m =
     Returned (true, set_value pv tv m)).
Proof.
  intros Hfresh Hcount.
  assert (Hrule : ∀ f, node graph tv = anchor_ m
                       ∨ kind pattern (node pattern pv) = prim_Param →
            matchValues pattern graph (S f) pv tv m =
            matchNodes pattern graph f (node pattern pv) (node graph tv)
                       (set_value pv tv m)).
  { intros f Hexc. rewrite matchValues_S, Hfresh.
    replace (use_count_rejects pattern graph m pv tv) with false; [reflexivity|].
    symmetry. apply use_count_rejects_false. tauto. }
  split; [|split].
  - intros Hanchor Hparam. rewrite matchValues_S, Hfresh.
    destruct (use_count_rejects pattern graph m pv tv) eqn:Huse; [reflexivity|].
    apply use_count_rejects_false in Huse. tauto.
  - apply Hrule.
  - intros Hanchor Hroot. rewrite Hrule by tauto.
    rewrite matchNodes_S. simpl. rewrite Hroot, Hanchor.
    by rewrite bool_decide_eq_true_2.
Qed.

(** C4: for a pattern node [pn] without an entry that is not a
    placeholder, [matchNodes] fails unless [pn] and [tn] agree in kind,
    number of outputs and number of inputs; so a node with 2 inputs never
    matches a node of the same kind with 3 inputs. *)
Theorem matchNodes_structural_rule (fuel : nat) (pn tn : NodeId) (m : Matcher) :
  nodes_map_ m !! pn = None →
  kind pattern pn ≠ prim_Param →
  (¬ (kind pattern pn = kind graph tn
      ∧ length (outputs pattern pn) = length (outputs graph tn)
      ∧ length (inputs pattern pn) = length (inputs graph tn)) →
   matchNodes pattern graph (S fuel) pn tn m = Returned (false, m))
  ∧ (kind pattern pn = kind graph tn →
     length (inputs pattern pn) = 2 → length (inputs graph tn) = 3 →
     matchNodes pattern graph (S fuel) pn tn m = Returned (false, m)).
Proof.
  intros Hfresh Hparam.
  assert (Hrule : ¬ (kind pattern pn = kind graph tn
      ∧ length (outputs pattern pn) = length (outputs graph tn)
      ∧ length (inputs pattern pn) = length (inputs graph tn)) →
   matchNodes pattern graph (S fuel) pn tn m = Returned (false, m)).
  { intros Hdiff. rewrite matchNodes_S, Hfresh.
    rewrite bool_decide_eq_false_2 by exact Hparam.
    destruct (negb _); [reflexivity|].
    destruct (structure_rejects pattern graph pn tn) eqn:Hstruct; [reflexivity|].
    apply structure_rejects_false in Hstruct. tauto. }
  split; [exact Hrule|].
  intros _ H2 H3. apply Hrule. lia.
Qed.

Lemma matchNodes_param (fuel : nat) (pn tn : nat) (m : Matcher) :
  nodes_map_ m !! pn = None →
  kind pattern pn = prim_Param →
  matchNodes pattern graph (S fuel) pn tn m = Returned (true, m).
Proof.
  intros Hfresh Hparam. rewrite matchNodes_S, Hfresh.
  by rewrite bool_decide_eq_true_2.
Qed.

(** C10: a placeholder pattern node without an entry matches every target
    node, whatever block that node is in, and leaves the maps as they are;
    so a value defined by a placeholder binds to any target value. *)
Theorem matchNodes_param_matches_everything (fuel : nat) (pn : NodeId) (m : Matcher) :
  nodes_map_ m !! pn = None →
  kind pattern pn = prim_Param →
  (∀ tn, matchNodes pattern graph (S fuel) pn tn m = Returned (true, m))
  ∧ (∀ pv tv, node pattern pv = pn → values_map_ m !! pv = None →
       matchValues pattern graph (S (S fuel)) pv tv m =
       Returned (true, set_value pv tv m)).
Proof.
  intros Hfresh Hparam.
  split; [intros tn; by apply matchNodes_param|].
  intros pv tv Hpv Hv. rewrite matchValues_S, Hv.
  replace (use_count_rejects pattern graph m pv tv) with false.
  - rewrite Hpv. by apply matchNodes_param.
  - symmetry. apply use_count_rejects_false. rewrite Hpv. tauto.
Qed.

(** C6: within one attempt the maps are write-once.  Calls of the matcher
    only lead to later states; in every later state an entry of either map
    is still there, unchanged, and a further comparison of its key
    succeeds exactly for the recorded target. *)
Theorem maps_write_once :
  (∀ fuel v1 v2 m b m',
      matchValues pattern graph fuel v1 v2 m = Returned (b, m') →
      later pattern graph m m')
  ∧ (∀ fuel n1 n2 m b m',
      matchNodes pattern graph fuel n1 n2 m = Returned (b, m') →
      later pattern graph m m')
  ∧ (∀ m m' pv tv,
      later pattern graph m m' → values_map_ m !! pv = Some tv →
      values_map_ m' !! pv = Some tv
      ∧ ∀ fuel tv2, matchValues pattern graph (S fuel) pv tv2 m' =
                    Returned (bool_decide (tv = tv2), m'))
  ∧ (∀ m m' pn tn,
      later pattern graph m m' → nodes_map_ m !! pn = Some tn →
      nodes_map_ m' !! pn = Some tn
      ∧ ∀ fuel tn2, matchNodes pattern graph (S fuel) pn tn2 m' =
                    Returned (bool_decide (tn = tn2), m')).
Proof.
  split; [|split; [|split]].
  - intros fuel. apply (calls_later pattern graph fuel).
  - intros fuel. apply (calls_later pattern graph fuel).
  - intros m m' pv tv Hlater Hpv.
    destruct (later_maps _ _ _ _ Hlater) as [_ Hsub].
    pose proof (lookup_weaken _ _ _ _ Hpv Hsub) as Hpv'.
    split; [exact Hpv'|].
    intros fuel tv2. by rewrite matchValues_S, Hpv'.
  - intros m m' pn tn Hlater Hpn.
    destruct (later_maps _ _ _ _ Hlater) as [Hsub _].
    pose proof (lookup_weaken _ _ _ _ Hpn Hsub) as Hpn'.
    split; [exact Hpn'|].
    intros fuel tn2. by rewrite matchNodes_S, Hpn'.
Qed.
End Rules.

(** ** Complete entries *)

Section Completes.
Variables pattern graph : Graph.
Local Abbreviation later := (later pattern graph).
Local Abbreviation completes := (completes pattern graph).
Local Abbreviation node_matched := (node_matched pattern graph).
Local Abbreviation value_matched := (value_matched pattern graph).

Lemma value_matched_later m m' pv :
  value_matched m pv → later m m' → value_matched m' pv.
Proof.
  intros (tv & Hpv & Hnode) Hlater.
  destruct (later_maps _ _ _ _ Hlater) as [Hn Hv].
  exists tv. split; [by eapply lookup_weaken|].
  destruct Hnode as [?|Hnode]; [by left | right; by eapply lookup_weaken].
Qed.

Lemma node_matched_later m m' pn :
  node_matched m pn → later m m' → node_matched m' pn.
Proof.
  intros (tn & Hpn & Houts & Hins) Hlater.
  destruct (later_maps _ _ _ _ Hlater) as [Hn Hv].
  exists tn. split; [by eapply lookup_weaken|].
  split; intros i Hi; eapply lookup_weaken; eauto.
Qed.

Lemma completes_refl m : completes m m.
Proof.
  split; [apply later_now|].
  split; intros k Hnone [x Hsome]; congruence.
Qed.

Lemma completes_trans m1 m2 m3 :
  completes m1 m2 → completes m2 m3 → completes m1 m3.
Proof.
  intros (L12 & V12 & N12) (L23 & V23 & N23).
  split; [by eapply later_trans|]. split.
  - intros pv Hnone Hsome.
    destruct (values_map_ m2 !! pv) eqn:H2.
    + eapply value_matched_later; [|exact L23]. apply V12; [exact Hnone|eauto].
    + by apply V23.
  - intros pn Hnone Hsome.
    destruct (nodes_map_ m2 !! pn) eqn:H2.
    + eapply node_matched_later; [|exact L23]. apply N12; [exact Hnone|eauto].
    + by apply N23.
Qed.

(** A successful call completes every entry it adds, and records what it
    was asked to compare. *)
Lemma calls_complete fuel :
  (∀ v1 v2 m m',
      matchValues pattern graph fuel v1 v2 m = Returned (true, m') →
      completes m m' ∧ values_map_ m' !! v1 = Some v2)
  ∧ (∀ n1 n2 m m',
      matchNodes pattern graph fuel n1 n2 m = Returned (true, m') →
      completes m m'
      ∧ (kind pattern n1 = prim_Param ∨ nodes_map_ m' !! n1 = Some n2)).
Proof.
  induction fuel as [|fuel [IHv IHn]]; [split; intros; discriminate|].
  assert (Hloop : ∀ (l1 l2 : list ValueId) m m',
            for_all (fun i => matchValues pattern graph fuel
                                (at_index l1 i) (at_index l2 i))
                    0 (length l1) m = Returned (true, m') →
            completes m m'
            ∧ ∀ i, i < length l1 →
                   values_map_ m' !! at_index l1 i = Some (at_index l2 i)).
  { intros l1 l2 m m' Hrun.
    apply (for_all_true completes
             (fun i m => values_map_ m !! at_index l1 i = Some (at_index l2 i)))
      in Hrun.
    - destruct Hrun as [HR HQ]. split; [exact HR|]. intros i Hi. apply HQ. lia.
    - apply completes_refl.
    - apply completes_trans.
    - intros i m0 m0' HQ (Hl & _).
      destruct (later_maps _ _ _ _ Hl) as [_ Hv]. by eapply lookup_weaken.
    - intros i m0 m0' _ Hcall. by apply IHv. }
  split.
  - intros v1 v2 m m'. rewrite matchValues_S.
    destruct (values_map_ m !! v1) as [v|] eqn:Hv1.
    { intros [= Heq <-]. apply bool_decide_eq_true in Heq as ->.
      split; [apply completes_refl | exact Hv1]. }
    destruct (use_count_rejects pattern graph m v1 v2) eqn:Huse; [discriminate|].
    intros Hcall. destruct (IHn _ _ _ _ Hcall) as [(L & V & N) Hnode].
    destruct (later_maps _ _ _ _ L) as [_ Hsub].
    assert (Hrec : values_map_ m' !! v1 = Some v2).
    { eapply lookup_weaken; [|exact Hsub]. simpl. apply lookup_insert_eq. }
    split; [|exact Hrec].
    split; [|split].
    + eapply later_trans; [|exact L].
      apply later_value; [apply later_now | assumption..].
    + intros pv Hnone Hsome. destruct (decide (pv = v1)) as [->|Hne].
      * exists v2. split; [exact Hrec | exact Hnode].
      * apply V; [|exact Hsome]. simpl. by rewrite lookup_insert_ne.
    + intros pn Hnone Hsome. by apply N.
  - intros n1 n2 m m'. rewrite matchNodes_S.
    destruct (nodes_map_ m !! n1) as [n|] eqn:Hn1.
    { intros [= Heq <-]. apply bool_decide_eq_true in Heq as ->.
      split; [apply completes_refl | by right]. }
    case_bool_decide as Hparam.
    { intros [= <-]. split; [apply completes_refl | by left]. }
    case_bool_decide as Hblock; simpl; [|discriminate].
    destruct (structure_rejects pattern graph n1 n2) eqn:Hstruct; [discriminate|].
    unfold match_outputs, match_inputs.
    destruct (for_all _ 0 (length (outputs pattern n1)) (set_node n1 n2 m))
      as [[[] m1]| |] eqn:Houts; try discriminate.
    intros Hins.
    apply Hloop in Houts as [C1 Qouts]. apply Hloop in Hins as [C2 Qins].
    pose proof (completes_trans _ _ _ C1 C2) as (L & V & N).
    destruct C2 as (L2 & _ & _).
    destruct (later_maps _ _ _ _ L) as [Hsubn _].
    destruct (later_maps _ _ _ _ L2) as [_ Hsubv].
    assert (Hrec : nodes_map_ m' !! n1 = Some n2).
    { eapply lookup_weaken; [|exact Hsubn]. simpl. apply lookup_insert_eq. }
    split; [|by right].
    split; [|split].
    + eapply later_trans; [|exact L].
      apply later_node; [apply later_now | assumption..].
    + intros pv Hnone Hsome. by apply V.
    + intros pn Hnone Hsome. destruct (decide (pn = n1)) as [->|Hne].
      * exists n2. split; [exact Hrec|]. split; [|exact Qins].
        intros i Hi. eapply lookup_weaken; [|exact Hsubv]. by apply Qouts.
      * apply N; [|exact Hsome]. simpl. by rewrite lookup_insert_ne.
Qed.
End Completes.

(** ** One anchor attempt *)

Section Attempt.
Variables pattern graph : Graph.

Lemma attempt_unfold fuel a m :
  matchesSubgraphFromAnchorNode pattern graph fuel a m =
  if negb (length (inputs pattern (end_node pattern (block pattern))) =? 1)
  then AssertionFailure
  else matchNodes pattern graph fuel (pattern_root pattern) a (reset a m).
Proof.
  unfold matchesSubgraphFromAnchorNode, pattern_root.
  destruct (negb _); [reflexivity|].
  by destruct (matchNodes _ _ _ _ _ _) as [[[] ?]| |].
Qed.

(** The attempt does not depend on what the matcher held before. *)
Lemma attempt_fresh fuel a m1 m2 :
  matchesSubgraphFromAnchorNode pattern graph fuel a m1 =
  matchesSubgraphFromAnchorNode pattern graph fuel a m2.
Proof. reflexivity. Qed.

Lemma attempt_returned fuel a m b m' :
  matchesSubgraphFromAnchorNode pattern graph fuel a m = Returned (b, m') →
  length (inputs pattern (end_node pattern (block pattern))) = 1
  ∧ matchNodes pattern graph fuel (pattern_root pattern) a (reset a m)
    = Returned (b, m').
Proof.
  rewrite attempt_unfold.
  destruct (Nat.eqb_spec
              (length (inputs pattern (end_node pattern (block pattern)))) 1);
    simpl; [tauto | discriminate].
Qed.

Lemma attempt_later fuel a m b m' :
  matchesSubgraphFromAnchorNode pattern graph fuel a m = Returned (b, m') →
  later pattern graph (reset a m) m'.
Proof.
  intros Hrun. apply attempt_returned in Hrun as [_ Hrun].
  exact (proj2 (calls_later pattern graph fuel) _ _ _ _ _ Hrun).
Qed.

Lemma reset_in_anchor_block a m : in_anchor_block graph (reset a m).
Proof. intros pn tn. simpl. by rewrite lookup_empty. Qed.

Lemma reset_no_param_key a m : no_param_key pattern (reset a m).
Proof. intros pn tn. simpl. by rewrite lookup_empty. Qed.

(** After a successful attempt every entry is complete, and the root is
    recorded for the anchor unless it is a placeholder. *)
Lemma attempt_complete fuel a m m' :
  matchesSubgraphFromAnchorNode pattern graph fuel a m = Returned (true, m') →
  (kind pattern (pattern_root pattern) = prim_Param
   ∨ nodes_map_ m' !! pattern_root pattern = Some a)
  ∧ (∀ pv, is_Some (values_map_ m' !! pv) → value_matched pattern graph m' pv)
  ∧ (∀ pn, is_Some (nodes_map_ m' !! pn) → node_matched pattern graph m' pn).
Proof.
  intros Hrun. apply attempt_returned in Hrun as [_ Hrun].
  apply calls_complete in Hrun as [(_ & V & N) Hroot].
  split; [exact Hroot|].
  split; [intros pv; apply V | intros pn; apply N]; simpl; apply lookup_empty.
Qed.

Lemma at_index_elem (l : list nat) (i : nat) : i < length l → at_index l i ∈ l.
Proof. intros Hi. apply list_elem_of_In. by apply nth_In. Qed.

Lemma elem_at_index (l : list nat) (x : nat) :
  x ∈ l → ∃ i, i < length l ∧ at_index l i = x.
Proof.
  intros Hx. apply list_elem_of_In in Hx.
  destruct (In_nth l x 0 Hx) as (i & Hi & Heq). eauto.
Qed.

(** After a successful attempt every reached pattern node that is not a
    placeholder has a complete entry. *)
Lemma attempt_reached fuel a m m' :
  matchesSubgraphFromAnchorNode pattern graph fuel a m = Returned (true, m') →
  ∀ pn, reached pattern pn → kind pattern pn ≠ prim_Param →
        node_matched pattern graph m' pn.
Proof.
  intros Hrun. destruct (attempt_complete _ _ _ _ Hrun) as (Hroot & V & N).
  assert (Hvalue : ∀ v, is_Some (values_map_ m' !! v) →
                        kind pattern (node pattern v) ≠ prim_Param →
                        node_matched pattern graph m' (node pattern v)).
  { intros v Hv Hparam. destruct (V v Hv) as (tv & _ & [?|Hnode]); [done|].
    apply N. eauto. }
  induction 1 as [|pn v _ IH Hpn Hv|pn v _ IH Hpn Hv]; intros Hparam.
  - destruct Hroot as [?|Hroot]; [done|]. apply N. eauto.
  - destruct (IH Hpn) as (tn & _ & Houts & _).
    apply elem_at_index in Hv as (i & Hi & <-).
    apply Hvalue; [|exact Hparam]. rewrite Houts by exact Hi. eauto.
  - destruct (IH Hpn) as (tn & _ & _ & Hins).
    apply elem_at_index in Hv as (i & Hi & <-).
    apply Hvalue; [|exact Hparam]. rewrite Hins by exact Hi. eauto.
Qed.
End Attempt.

(** ** Reported matches *)

Section Reported.
Variables pattern graph : Graph.

Lemma visit_nodes_reported fuel ns :
  ∀ d d', visit_nodes pattern graph fuel ns d = Returned d' →
          Forall (from_attempt pattern graph fuel) (matches d) →
          Forall (from_attempt pattern graph fuel) (matches d').
Proof.
  induction ns as [|n ns IH]; intros d d'; simpl.
  - by intros [= <-].
  - destruct (matchesSubgraphFromAnchorNode pattern graph fuel n (drv_m d))
      as [[b m']| |] eqn:Hrun; try discriminate.
    intros Hrest Hall. eapply IH; [exact Hrest|]. simpl.
    destruct b; [|exact Hall].
    apply Forall_app. split; [exact Hall|].
    apply Forall_singleton. exists (drv_m d), m'. simpl. by split.
Qed.

Lemma visit_blocks_reported steps fuel :
  ∀ d d', visit_blocks pattern graph steps fuel d = Returned d' →
          Forall (from_attempt pattern graph fuel) (matches d) →
          Forall (from_attempt pattern graph fuel) (matches d').
Proof.
  induction steps as [|steps IH]; intros d d'; simpl.
  - destruct (blocks_to_visit d); [by intros [= <-] | discriminate].
  - destruct (blocks_to_visit d) as [|b rest]; [by intros [= <-]|].
    destruct (visit_nodes pattern graph fuel (nodes graph b) _)
      as [d1| |] eqn:Hnodes; try discriminate.
    intros Hrest Hall. eapply IH; [exact Hrest|].
    eapply visit_nodes_reported; [exact Hnodes | exact Hall].
Qed.

(** Every reported match is the outcome of a successful attempt. *)
Lemma reported_from_attempt fuel ms mt :
  findPatternMatches pattern graph fuel = Returned ms → mt ∈ ms →
  from_attempt pattern graph fuel mt.
Proof.
  unfold findPatternMatches. destruct (negb _); [discriminate|].
  destruct (visit_blocks pattern graph fuel fuel _) as [d| |] eqn:Hrun;
    try discriminate.
  intros [= <-] Hin.
  apply visit_blocks_reported in Hrun; [|by apply Forall_nil].
  by eapply Forall_forall in Hrun.
Qed.
End Reported.

(** ** Scope and coverage of the node map *)

Section NodeMap.
Variables pattern graph : Graph.

(** C5 (as amended): in every state of an attempt the targets of the node
    map lie in the anchor's block.  The maps start empty, every later
    state keeps the property, and for a pattern node that is not a
    placeholder [matchNodes] fails when the target node's block differs
    from the anchor's.  So the node map an attempt ends with, and the node
    map of every reported match, stays inside the anchor's block. *)
Theorem node_map_in_anchor_block :
  (∀ a m, in_anchor_block graph (reset a m))
  ∧ (∀ m m', later pattern graph m m' →
             in_anchor_block graph m → in_anchor_block graph m')
  ∧ (∀ fuel pn tn m,
        in_anchor_block graph m →
        kind pattern pn ≠ prim_Param →
        owningBlock graph tn ≠ owningBlock graph (anchor_ m) →
        matchNodes pattern graph (S fuel) pn tn m = Returned (false, m))
  ∧ (∀ fuel a m b m',
        matchesSubgraphFromAnchorNode pattern graph fuel a m = Returned (b, m') →
        ∀ pn tn, nodes_map_ m' !! pn = Some tn →
                 owningBlock graph tn = owningBlock graph a)
  ∧ (∀ fuel ms mt,
        findPatternMatches pattern graph fuel = Returned ms → mt ∈ ms →
        ∀ pn tn, nodes_map mt !! pn = Some tn →
                 owningBlock graph tn = owningBlock graph (anchor mt)).
Proof.
  assert (Hattempt : ∀ fuel a m b m',
        matchesSubgraphFromAnchorNode pattern graph fuel a m = Returned (b, m') →
        ∀ pn tn, nodes_map_ m' !! pn = Some tn →
                 owningBlock graph tn = owningBlock graph a).
  { intros fuel a m b m' Hrun pn tn Hpn.
    apply attempt_later in Hrun.
    pose proof (later_in_anchor_block _ _ _ _ Hrun (reset_in_anchor_block _ a m))
      as Hin.
    unfold in_anchor_block in Hin.
    rewrite (later_anchor _ _ _ _ Hrun) in Hin. by eapply Hin. }
  split; [apply reset_in_anchor_block|].
  split; [apply later_in_anchor_block|].
  split; [|split; [exact Hattempt|]].
  - intros fuel pn tn m Hin Hparam Hblock. rewrite matchNodes_S.
    destruct (nodes_map_ m !! pn) as [tn'|] eqn:Hpn.
    + rewrite bool_decide_eq_false_2; [reflexivity|].
      intros ->. apply Hblock. by eapply Hin.
    + rewrite bool_decide_eq_false_2 by exact Hparam.
      by rewrite bool_decide_eq_false_2.
  - intros fuel ms mt Hfind Hmt pn tn Hpn.
    destruct (reported_from_attempt _ _ _ _ _ Hfind Hmt) as (m & m' & Hrun & Heq).
    rewrite Heq in Hpn. simpl in Hpn. by eapply Hattempt.
Qed.
End NodeMap.

(** ** Termination of an attempt *)

Lemma difference_shrinks (X D D' : gset nat) : D ⊆ D' → X ∖ D' ⊆ X ∖ D.
Proof.
  intros Hsub x. rewrite !elem_of_difference. intros [Hx Hd].
  split; [exact Hx|]. intros Hd'. apply Hd, Hsub, Hd'.
Qed.

Lemma difference_shrinks_strictly (X D : gset nat) (k : nat) :
  k ∈ X → k ∉ D → X ∖ ({[k]} ∪ D) ⊂ X ∖ D.
Proof.
  intros Hk Hfresh. split.
  - apply difference_shrinks. apply union_subseteq_r.
  - intros Hsub. assert (k ∈ X ∖ ({[k]} ∪ D)) as Hin.
    { apply Hsub, elem_of_difference. by split. }
    apply elem_of_difference in Hin as [_ Hin].
    apply Hin, elem_of_union_l, elem_of_singleton. reflexivity.
Qed.

Section Termination.
Variables pattern graph : Graph.
Variable PN : gset NodeId.
Variable PV : gset ValueId.
Local Abbreviation μ := (unmapped PN PV).

Lemma unmapped_later m m' : later pattern graph m m' → μ m' ≤ μ m.
Proof.
  intros Hlater. destruct (later_maps _ _ _ _ Hlater) as [Hn Hv].
  apply subseteq_dom in Hn, Hv. unfold unmapped.
  pose proof (subseteq_size _ _ (difference_shrinks PV _ _ Hv)) as Hvs.
  pose proof (subseteq_size _ _ (difference_shrinks PN _ _ Hn)) as Hns.
  lia.
Qed.

Lemma unmapped_set_value m v1 v2 :
  v1 ∈ PV → values_map_ m !! v1 = None → μ (set_value v1 v2 m) < μ m.
Proof.
  intros Hin Hfresh. apply not_elem_of_dom in Hfresh.
  unfold unmapped. simpl. rewrite dom_insert_L.
  pose proof (subset_size _ _ (difference_shrinks_strictly PV _ _ Hin Hfresh)).
  lia.
Qed.

Lemma unmapped_set_node m n1 n2 :
  n1 ∈ PN → nodes_map_ m !! n1 = None → μ (set_node n1 n2 m) < μ m.
Proof.
  intros Hin Hfresh. apply not_elem_of_dom in Hfresh.
  unfold unmapped. simpl. rewrite dom_insert_L.
  pose proof (subset_size _ _ (difference_shrinks_strictly PN _ _ Hin Hfresh)).
  lia.
Qed.

Lemma unmapped_bound m : μ m ≤ size PN + size PV.
Proof.
  unfold unmapped.
  assert (size (PV ∖ dom (values_map_ m)) ≤ size PV) as Hvs
    by (apply subseteq_size, subseteq_difference_l; reflexivity).
  assert (size (PN ∖ dom (nodes_map_ m)) ≤ size PN) as Hns
    by (apply subseteq_size, subseteq_difference_l; reflexivity).
  lia.
Qed.

Hypothesis finite : finite_pattern pattern PN PV.

(** A budget above the number of pattern nodes and values still without
    an entry is enough for a call to return. *)
Lemma calls_return fuel :
  (∀ v1 v2 m, v1 ∈ PV → μ m < fuel →
      ∃ b m', matchValues pattern graph fuel v1 v2 m = Returned (b, m'))
  ∧ (∀ n1 n2 m, n1 ∈ PN → μ m < fuel →
      ∃ b m', matchNodes pattern graph fuel n1 n2 m = Returned (b, m')).
Proof.
  induction fuel as [|fuel [IHv IHn]]; [split; intros; lia|].
  assert (Hloop : ∀ (l1 l2 : list ValueId) m,
            (∀ v, v ∈ l1 → v ∈ PV) → μ m < fuel →
            ∃ b m', for_all (fun i => matchValues pattern graph fuel
                                        (at_index l1 i) (at_index l2 i))
                            0 (length l1) m = Returned (b, m')
                    ∧ μ m' ≤ μ m).
  { intros l1 l2 m Hl1 Hm.
    apply (for_all_returns μ (μ m)); [|lia].
    intros i m0 Hi Hm0.
    destruct (IHv (at_index l1 i) (at_index l2 i) m0) as (b0 & m0' & Hcall).
    - apply Hl1, at_index_elem. lia.
    - lia.
    - exists b0, m0'. split; [exact Hcall|].
      apply unmapped_later.
      exact (proj1 (calls_later pattern graph fuel) _ _ _ _ _ Hcall). }
  split.
  - intros v1 v2 m Hv1 Hm. rewrite matchValues_S.
    destruct (values_map_ m !! v1) eqn:Hfresh; [eauto|].
    destruct (use_count_rejects pattern graph m v1 v2); [eauto|].
    apply IHn; [by apply (fp_node _ _ _ finite)|].
    pose proof (unmapped_set_value m v1 v2 Hv1 Hfresh). lia.
  - intros n1 n2 m Hn1 Hm. rewrite matchNodes_S.
    destruct (nodes_map_ m !! n1) eqn:Hfresh; [eauto|].
    destruct (bool_decide _); [eauto|].
    destruct (negb _); [eauto|].
    destruct (structure_rejects pattern graph n1 n2); [eauto|].
    pose proof (unmapped_set_node m n1 n2 Hn1 Hfresh) as Hdec.
    unfold match_outputs, match_inputs.
    destruct (Hloop (outputs pattern n1) (outputs graph n2) (set_node n1 n2 m))
      as ([] & m1 & -> & Hm1);
      [intros v; by apply (fp_outputs _ _ _ finite n1) | lia | | eauto].
    destruct (Hloop (inputs pattern n1) (inputs graph n2) m1)
      as (b & m2 & -> & _);
      [intros v; by apply (fp_inputs _ _ _ finite n1) | lia | eauto].
Qed.
End Termination.

(** ** More budget changes nothing *)

Lemma for_all_more (body1 body2 : nat → M) count :
  ∀ first m r,
    (∀ i m0 r0, body1 i m0 = Returned r0 → body2 i m0 = Returned r0) →
    for_all body1 first count m = Returned r →
    for_all body2 first count m = Returned r.
Proof.
  induction count as [|count IH]; intros first m r Hmore; simpl; [done|].
  destruct (body1 first m) as [[[] m1]| |] eqn:Hfirst; try discriminate.
  - rewrite (Hmore _ _ _ Hfirst). by apply IH.
  - by rewrite (Hmore _ _ _ Hfirst).
Qed.

Section MoreFuel.
Variables pattern graph : Graph.

Lemma calls_more_fuel_S fuel :
  (∀ v1 v2 m r, matchValues pattern graph fuel v1 v2 m = Returned r →
                matchValues pattern graph (S fuel) v1 v2 m = Returned r)
  ∧ (∀ n1 n2 m r, matchNodes pattern graph fuel n1 n2 m = Returned r →
                  matchNodes pattern graph (S fuel) n1 n2 m = Returned r).
Proof.
  induction fuel as [|fuel [IHv IHn]]; [split; intros; discriminate|].
  split.
  - intros v1 v2 m r. rewrite !(matchValues_S _ _ _ v1).
    destruct (values_map_ m !! v1); [done|].
    destruct (use_count_rejects pattern graph m v1 v2); [done|]. apply IHn.
  - intros n1 n2 m r. rewrite !(matchNodes_S _ _ _ n1).
    destruct (nodes_map_ m !! n1); [done|].
    destruct (bool_decide _); [done|].
    destruct (negb _); [done|].
    destruct (structure_rejects pattern graph n1 n2); [done|].
    unfold match_outputs, match_inputs.
    destruct (for_all _ 0 (length (outputs pattern n1)) (set_node n1 n2 m))
      as [[[] m1]| |] eqn:Houts; try discriminate.
    + eapply for_all_more in Houts; [rewrite Houts|intros; by apply IHv].
      apply for_all_more. intros; by apply IHv.
    + eapply for_all_more in Houts; [by rewrite Houts|intros; by apply IHv].
Qed.

Lemma matchNodes_more_fuel fuel fuel' n1 n2 m r :
  fuel ≤ fuel' →
  matchNodes pattern graph fuel n1 n2 m = Returned r →
  matchNodes pattern graph fuel' n1 n2 m = Returned r.
Proof.
  induction 1 as [|fuel' _ IH]; [done|].
  intros Hrun. by apply calls_more_fuel_S, IH.
Qed.

Lemma attempt_more_fuel fuel fuel' a m r :
  fuel ≤ fuel' →
  matchesSubgraphFromAnchorNode pattern graph fuel a m = Returned r →
  matchesSubgraphFromAnchorNode pattern graph fuel' a m = Returned r.
Proof.
  intros Hle. rewrite !attempt_unfold.
  destruct (negb _); [done|]. by apply matchNodes_more_fuel.
Qed.
End MoreFuel.

(** ** The search driver on a well-formed target *)

Section BlockTrees.
Variable g : Graph.

Lemma block_shaped_inv b ns :
  block_shaped g (BlockT b ns) →
  nodes g b = nt_id <$> ns ∧ Forall (node_shaped g) ns.
Proof. by inversion 1. Qed.

Lemma node_shaped_inv n bs :
  node_shaped g (NodeT n bs) →
  blocks g n = bt_id <$> bs ∧ Forall (block_shaped g) bs.
Proof. by inversion 1. Qed.

Lemma children_shaped ns :
  Forall (node_shaped g) ns →
  (nt_id <$> ns) ≫= blocks g = bt_id <$> (ns ≫= nt_children)
  ∧ Forall (block_shaped g) (ns ≫= nt_children).
Proof.
  induction 1 as [|[n bs] ns Hn _ [IHeq IHall]]; [by split|].
  apply node_shaped_inv in Hn as [Hblocks Hbs].
  rewrite fmap_cons, !bind_cons, fmap_app. simpl.
  rewrite Hblocks, IHeq. split; [done|]. by apply Forall_app.
Qed.

Lemma children_size ns :
  sum_list_with bt_size (ns ≫= nt_children) = sum_list_with nt_size ns.
Proof.
  induction ns as [|[n bs] ns IH]; [done|].
  rewrite bind_cons, sum_list_with_app. simpl. by rewrite IH.
Qed.

Lemma children_nodes ns :
  (nt_id <$> ns) ++ ((ns ≫= nt_children) ≫= bt_nodes) ≡ₚ ns ≫= nt_nodes.
Proof.
  induction ns as [|[n bs] ns IH]; [done|].
  rewrite fmap_cons, !bind_cons, bind_app. simpl.
  rewrite <- IH. apply Permutation_skip.
  rewrite !(assoc (++)). apply Permutation_app_tail, Permutation_app_comm.
Qed.
End BlockTrees.

Lemma push_all_reverse (bs stack : list nat) :
  push_all bs stack = reverse bs ++ stack.
Proof.
  unfold push_all. revert stack.
  induction bs as [|b bs IH]; intros stack; simpl; [done|].
  by rewrite IH, reverse_cons, <- (assoc (++)).
Qed.

Section DriverSpec.
Variables pattern graph : Graph.
Local Abbreviation attempt := (matchesSubgraphFromAnchorNode pattern graph).

Lemma visit_blocks_unfold steps fuel d :
  visit_blocks pattern graph (S steps) fuel d =
  match blocks_to_visit d with
  | [] => Returned d
  | b :: rest =>
      match visit_nodes pattern graph fuel (nodes graph b)
              {| drv_m := drv_m d; matches := matches d;
                 blocks_to_visit := rest |} with
      | Returned d' => visit_blocks pattern graph steps fuel d'
      | AssertionFailure => AssertionFailure
      | OutOfFuel => OutOfFuel
      end
  end.
Proof. by destruct d as [m ms []]. Qed.

Lemma visit_blocks_done steps fuel d :
  blocks_to_visit d = [] → visit_blocks pattern graph steps fuel d = Returned d.
Proof. intros Hstack. destruct steps; simpl; by rewrite Hstack. Qed.

(** The loop over the nodes of one block, when every attempt returns. *)
Lemma visit_nodes_spec fuel ns :
  (∀ n, ∃ b m', attempt fuel n m_init = Returned (b, m')) →
  ∀ d, ∃ m1,
    visit_nodes pattern graph fuel ns d =
    Returned {| drv_m := m1;
                matches := matches d ++ (ns ≫= attempts pattern graph fuel);
                blocks_to_visit := reverse (ns ≫= blocks graph) ++ blocks_to_visit d |}.
Proof.
  intros Hret. induction ns as [|n ns IH]; intros d; simpl.
  - exists (drv_m d). destruct d. simpl. by rewrite app_nil_r.
  - destruct (Hret n) as (b & m' & Hrun).
    rewrite (attempt_fresh pattern graph fuel n (drv_m d) m_init), Hrun.
    destruct (IH {| drv_m := m';
                    matches := if b then matches d ++ [report n m']
                               else matches d;
                    blocks_to_visit := push_all (blocks graph n) (blocks_to_visit d) |})
      as (m1 & ->).
    exists m1. simpl. f_equal. f_equal.
    + unfold attempts at 2. rewrite Hrun.
      destruct b; simpl; by rewrite <- ?(assoc (++)).
    + by rewrite push_all_reverse, reverse_app, <- (assoc (++)).
Qed.

(** The loop over the stack of blocks: on a stack of well-formed blocks,
    as many steps as there are blocks suffice, and the matches added are
    those of the attempts at all nodes of these blocks. *)
Lemma visit_blocks_spec fuel :
  (∀ n, ∃ b m', attempt fuel n m_init = Returned (b, m')) →
  ∀ steps ts d,
    Forall (block_shaped graph) ts →
    blocks_to_visit d = bt_id <$> ts →
    sum_list_with bt_size ts ≤ steps →
    ∃ d', visit_blocks pattern graph steps fuel d = Returned d'
          ∧ matches d' ≡ₚ
            matches d ++ ((ts ≫= bt_nodes) ≫= attempts pattern graph fuel).
Proof.
  intros Hret. induction steps as [|steps IH]; intros ts d Hshaped Hstack Hsize.
  - destruct ts as [|[b ns] rest]; simpl in Hsize; [|lia].
    exists d. split; [by apply visit_blocks_done|]. simpl. by rewrite app_nil_r.
  - destruct ts as [|[b ns] rest].
    { exists d. split; [by apply visit_blocks_done|]. simpl. by rewrite app_nil_r. }
    apply Forall_cons in Hshaped as [Hb Hrest].
    apply block_shaped_inv in Hb as [Hnodes Hns].
    destruct (children_shaped graph ns Hns) as [Hblocks Hchildren].
    rewrite fmap_cons in Hstack.
    rewrite visit_blocks_unfold, Hstack. cbn [bt_id]. rewrite Hnodes.
    destruct (visit_nodes_spec fuel (nt_id <$> ns) Hret
                {| drv_m := drv_m d; matches := matches d;
                   blocks_to_visit := bt_id <$> rest |}) as (m1 & ->).
    simpl.
    destruct (IH (reverse (ns ≫= nt_children) ++ rest)
                {| drv_m := m1;
                   matches := matches d ++
                     ((nt_id <$> ns) ≫= attempts pattern graph fuel);
                   blocks_to_visit := reverse ((nt_id <$> ns) ≫= blocks graph) ++
                                (bt_id <$> rest) |})
      as (d' & Hrun & Hperm).
    + apply Forall_app. split; [by apply Forall_reverse | done].
    + simpl. by rewrite Hblocks, fmap_app, fmap_reverse.
    + rewrite sum_list_with_app, sum_list_with_reverse, children_size.
      simpl in Hsize. lia.
    + exists d'. split; [exact Hrun|].
      rewrite Hperm. simpl.
      rewrite <- (assoc (++)). apply Permutation_app_head.
      rewrite <- bind_app. apply bind_Permutation.
      rewrite !bind_app, reverse_Permutation, (assoc (++)).
      apply Permutation_app_tail, children_nodes.
Qed.

Lemma visit_nodes_more_fuel fuel fuel' ns :
  fuel ≤ fuel' →
  ∀ d d', visit_nodes pattern graph fuel ns d = Returned d' →
          visit_nodes pattern graph fuel' ns d = Returned d'.
Proof.
  intros Hle. induction ns as [|n ns IH]; intros d d'; simpl; [done|].
  destruct (attempt fuel n (drv_m d)) as [[b m']| |] eqn:Hrun; try discriminate.
  rewrite (attempt_more_fuel _ _ _ _ _ _ _ Hle Hrun). apply IH.
Qed.

Lemma visit_blocks_more_fuel fuel fuel' steps :
  fuel ≤ fuel' →
  ∀ steps' d d',
    steps ≤ steps' →
    visit_blocks pattern graph steps fuel d = Returned d' →
    visit_blocks pattern graph steps' fuel' d = Returned d'.
Proof.
  intros Hle. induction steps as [|steps IH]; intros steps' d d' Hsteps.
  - simpl. destruct (blocks_to_visit d) eqn:Hstack; [|discriminate].
    intros [= <-]. by apply visit_blocks_done.
  - destruct steps' as [|steps']; [lia|].
    rewrite !visit_blocks_unfold.
    destruct (blocks_to_visit d) as [|b rest]; [done|].
    destruct (visit_nodes pattern graph fuel (nodes graph b) _)
      as [d1| |] eqn:Hnodes; try discriminate.
    rewrite (visit_nodes_more_fuel _ _ _ Hle _ _ Hnodes).
    apply IH. lia.
Qed.

(** The driver on a valid pattern and a well-formed target: when every
    attempt returns within [fuel0], the result is the same for every
    budget from [fuel0] and the number of blocks on, and it holds the
    matches of the attempts at all nodes of the target. *)
Lemma findPatternMatches_spec fuel0 t :
  patternGraphIsValid pattern = true →
  (∀ n, ∃ b m', attempt fuel0 n m_init = Returned (b, m')) →
  block_shaped graph t → bt_id t = block graph →
  bt_size t ≤ fuel0 →
  ∃ ms, (∀ fuel, fuel0 ≤ fuel →
                 findPatternMatches pattern graph fuel = Returned ms)
        ∧ ms ≡ₚ bt_nodes t ≫= attempts pattern graph fuel0.
Proof.
  intros Hvalid Hret Ht Hroot Hsize.
  destruct (visit_blocks_spec fuel0 Hret fuel0 [t]
              {| drv_m := m_init; matches := [];
                 blocks_to_visit := [block graph] |})
    as (d' & Hrun & Hperm).
  - by apply Forall_singleton.
  - simpl. by rewrite Hroot.
  - simpl. lia.
  - exists (matches d'). split.
    + intros fuel Hfuel. unfold findPatternMatches. rewrite Hvalid. simpl.
      by rewrite (visit_blocks_more_fuel _ _ _ Hfuel _ _ _ Hfuel Hrun).
    + rewrite Hperm. simpl. by rewrite app_nil_r.
Qed.
End DriverSpec.

(** ** Termination, outcomes and the placeholder pattern *)

Lemma closed_lists_sound (g : Graph) (ns vs : list nat) :
  closed_lists g ns vs = true →
  finite_pattern g (list_to_set ns) (list_to_set vs).
Proof.
  unfold closed_lists. rewrite !andb_true_iff, bool_decide_eq_true.
  rewrite !forallb_forall. intros [[Hexit Hnodes] Hvalues].
  split.
  - by apply elem_of_list_to_set.
  - intros n v Hn Hv. apply elem_of_list_to_set.
    apply elem_of_list_to_set, list_elem_of_In, Hnodes in Hn.
    apply andb_true_iff in Hn as [Hins _].
    rewrite forallb_forall in Hins.
    apply list_elem_of_In, Hins in Hv. by apply bool_decide_eq_true in Hv.
  - intros n v Hn Hv. apply elem_of_list_to_set.
    apply elem_of_list_to_set, list_elem_of_In, Hnodes in Hn.
    apply andb_true_iff in Hn as [_ Houts].
    rewrite forallb_forall in Houts.
    apply list_elem_of_In, Houts in Hv. by apply bool_decide_eq_true in Hv.
  - intros v Hv. apply elem_of_list_to_set.
    apply elem_of_list_to_set, list_elem_of_In, Hvalues in Hv.
    by apply bool_decide_eq_true in Hv.
Qed.

Section Outcomes.
Variables pattern graph : Graph.
Local Abbreviation attempt := (matchesSubgraphFromAnchorNode pattern graph).

Lemma root_in_pattern PN PV :
  finite_pattern pattern PN PV →
  length (inputs pattern (end_node pattern (block pattern))) = 1 →
  pattern_root pattern ∈ PN.
Proof.
  intros Hfin Hlen. unfold pattern_root.
  apply (fp_node _ _ _ Hfin).
  apply (fp_inputs _ _ _ Hfin (end_node pattern (block pattern)));
    [apply (fp_exit _ _ _ Hfin)|].
  apply at_index_elem. lia.
Qed.

(** With a valid exit node, an attempt on a finite pattern returns once
    the budget exceeds the number of pattern nodes and values. *)
Lemma attempt_returns PN PV fuel a m :
  finite_pattern pattern PN PV →
  length (inputs pattern (end_node pattern (block pattern))) = 1 →
  size PN + size PV < fuel →
  ∃ b m', attempt fuel a m = Returned (b, m').
Proof.
  intros Hfin Hlen Hfuel. rewrite attempt_unfold, Hlen. simpl.
  apply (calls_return pattern graph PN PV Hfin fuel);
    [by apply (root_in_pattern PN PV)|].
  pose proof (unmapped_bound PN PV (reset a m)). lia.
Qed.

(** C8: on a finite pattern [matchesSubgraphFromAnchorNode] terminates:
    beyond a budget given by the size of the pattern its outcome is fixed
    and is not exhaustion.  The reason is the one the source gives: a call
    of [matchValues] or [matchNodes] returns within a budget above the
    number of pattern entities still without an entry, never increases
    that number, and each of the two assignments made before recursing
    lowers it. *)
Theorem attempt_terminates (PN : gset nat) (PV : gset nat) :
  finite_pattern pattern PN PV →
  (∀ a m, ∃ r, r ≠ OutOfFuel
               ∧ ∀ fuel, size PN + size PV < fuel → attempt fuel a m = r)
  ∧ (∀ fuel v1 v2 m,
        v1 ∈ PV → unmapped PN PV m < fuel →
        ∃ b m', matchValues pattern graph fuel v1 v2 m = Returned (b, m')
                ∧ unmapped PN PV m' ≤ unmapped PN PV m)
  ∧ (∀ fuel n1 n2 m,
        n1 ∈ PN → unmapped PN PV m < fuel →
        ∃ b m', matchNodes pattern graph fuel n1 n2 m = Returned (b, m')
                ∧ unmapped PN PV m' ≤ unmapped PN PV m)
  ∧ (∀ m v1 v2, v1 ∈ PV → values_map_ m !! v1 = None →
                unmapped PN PV (set_value v1 v2 m) < unmapped PN PV m)
  ∧ (∀ m n1 n2, n1 ∈ PN → nodes_map_ m !! n1 = None →
                unmapped PN PV (set_node n1 n2 m) < unmapped PN PV m).
Proof.
  intros Hfin. split; [|split; [|split; [|split]]].
  - intros a m.
    destruct (decide (length (inputs pattern (end_node pattern (block pattern)))
                      = 1)) as [Hlen|Hlen].
    + destruct (attempt_returns PN PV (S (size PN + size PV)) a m Hfin Hlen)
        as (b & m' & Hrun); [lia|].
      exists (Returned (b, m')). split; [done|].
      intros fuel Hfuel. eapply attempt_more_fuel; [|exact Hrun]. lia.
    + exists AssertionFailure. split; [done|].
      intros fuel _. rewrite attempt_unfold.
      apply Nat.eqb_neq in Hlen. by rewrite Hlen.
  - intros fuel v1 v2 m Hv1 Hm.
    destruct (proj1 (calls_return pattern graph PN PV Hfin fuel) v1 v2 m Hv1 Hm)
      as (b & m' & Hrun).
    exists b, m'. split; [exact Hrun|].
    apply (unmapped_later pattern graph).
    exact (proj1 (calls_later pattern graph fuel) _ _ _ _ _ Hrun).
  - intros fuel n1 n2 m Hn1 Hm.
    destruct (proj2 (calls_return pattern graph PN PV Hfin fuel) n1 n2 m Hn1 Hm)
      as (b & m' & Hrun).
    exists b, m'. split; [exact Hrun|].
    apply (unmapped_later pattern graph).
    exact (proj2 (calls_later pattern graph fuel) _ _ _ _ _ Hrun).
  - apply unmapped_set_value.
  - apply unmapped_set_node.
Qed.

(** C9: [findPatternMatches] fails its assertion whenever the pattern is
    invalid, whatever the budget, so before any attempt.  For a valid
    pattern no attempt fails an assertion, and on a finite pattern and a
    well-formed target the call returns a sequence of matches: those of
    the successful attempts among all nodes of the target. *)
Theorem findPatternMatches_outcome :
  (patternGraphIsValid pattern = false →
   ∀ fuel, findPatternMatches pattern graph fuel = AssertionFailure)
  ∧ (patternGraphIsValid pattern = true →
     ∀ fuel a m, attempt fuel a m ≠ AssertionFailure)
  ∧ (patternGraphIsValid pattern = true →
     ∀ PN PV t,
       finite_pattern pattern PN PV →
       block_shaped graph t → bt_id t = block graph →
       ∃ ms,
         (∀ fuel, size PN + size PV + bt_size t < fuel →
                  findPatternMatches pattern graph fuel = Returned ms)
         ∧ ms ≡ₚ bt_nodes t ≫=
                 attempts pattern graph (S (size PN + size PV + bt_size t))).
Proof.
  split; [|split].
  - intros Hinvalid fuel. unfold findPatternMatches. by rewrite Hinvalid.
  - intros Hvalid fuel a m. apply valid_pattern_spec in Hvalid as [_ Hlen].
    rewrite attempt_unfold, Hlen. simpl.
    apply calls_no_assert.
  - intros Hvalid PN PV t Hfin Ht Hroot.
    destruct (findPatternMatches_spec pattern graph
                (S (size PN + size PV + bt_size t)) t Hvalid) as (ms & Hms & Hperm);
      [|exact Ht|exact Hroot|lia|].
    + intros n. apply valid_pattern_spec in Hvalid as [_ Hlen].
      apply (attempt_returns PN PV); [exact Hfin|exact Hlen|lia].
    + exists ms. split; [|exact Hperm].
      intros fuel Hfuel. apply Hms. lia.
Qed.

(** C1: when the pattern is a placeholder alone, feeding the exit node,
    [findPatternMatches] returns, for a well-formed target, one match for
    each node of the target, nested nodes included, anchored at that node
    (with both maps empty). *)
Theorem param_pattern_matches_every_node (p : nat) (v : nat) (t : BlockTree) :
  param_only pattern p v →
  block_shaped graph t → bt_id t = block graph →
  ∃ ms,
    (∀ fuel, bt_size t ≤ fuel →
             findPatternMatches pattern graph fuel = Returned ms)
    ∧ ms ≡ₚ (fun n => {| anchor := n; nodes_map := ∅; values_map := ∅ |})
            <$> bt_nodes t.
Proof.
  intros (Hnodes & Hkind & Hblocks & Houts & Hnode & Hexit) Ht Hroot.
  assert (Hvalid : patternGraphIsValid pattern = true).
  { apply valid_pattern_spec. rewrite Hexit. split; [|done].
    intros n Hn. apply Hnodes in Hn as ->. exact Hblocks. }
  assert (Hrootp : kind pattern (pattern_root pattern) = prim_Param).
  { unfold pattern_root, at_index. rewrite Hexit. simpl. by rewrite Hnode. }
  assert (Hattempt : ∀ fuel n m, attempt (S fuel) n m = Returned (true, reset n m)).
  { intros fuel n m. rewrite attempt_unfold, Hexit.
    change (negb (length [v] =? 1)) with false. cbv iota.
    apply matchNodes_param; [apply lookup_empty|exact Hrootp]. }
  assert (Hsize : 1 ≤ bt_size t) by (destruct t; simpl; lia).
  destruct (findPatternMatches_spec pattern graph (bt_size t) t Hvalid)
    as (ms & Hms & Hperm); [|exact Ht|exact Hroot|lia|].
  - intros n. destruct (bt_size t); [lia|]. rewrite Hattempt. eauto.
  - exists ms. split; [exact Hms|].
    rewrite Hperm. clear Hperm Hms.
    induction (bt_nodes t) as [|n ns IH]; [done|].
    rewrite bind_cons, fmap_cons, IH.
    unfold attempts. destruct (bt_size t); [lia|]. by rewrite Hattempt.
Qed.
End Outcomes.

(** ** What a successful attempt establishes *)

Section Soundness.
Variables pattern graph : Graph.
Local Abbreviation attempt := (matchesSubgraphFromAnchorNode pattern graph).

Lemma later_same_structure m m' :
  later pattern graph m m' →
  same_structure pattern graph m → same_structure pattern graph m'.
Proof.
  induction 1 as [|m1 v1 v2 _ IH _ _|m1 n1 n2 _ IH _ _ _ Hstruct];
    intros Hm; [exact Hm|exact (IH Hm)|].
  intros pn tn. simpl. destruct (decide (n1 = pn)) as [->|Hne].
  - rewrite lookup_insert_eq. intros [= <-].
    by apply structure_rejects_false.
  - rewrite lookup_insert_ne by exact Hne. apply (IH Hm).
Qed.

Lemma later_use_counts m m' :
  later pattern graph m m' →
  use_counts_respected pattern graph m → use_counts_respected pattern graph m'.
Proof.
  induction 1 as [|m1 v1 v2 _ IH _ Huse|m1 n1 n2 _ IH _ _ _ _];
    intros Hm; [exact Hm| |exact (IH Hm)].
  intros pv tv. simpl. destruct (decide (v1 = pv)) as [->|Hne].
  - rewrite lookup_insert_eq. intros [= <-].
    by apply use_count_rejects_false.
  - rewrite lookup_insert_ne by exact Hne. apply (IH Hm).
Qed.

Lemma reached_of_value pv :
  value_reached pattern pv → reached pattern (node pattern pv).
Proof.
  intros (pn & Hpn & Hparam & [Hout|Hin]).
  - by eapply reached_output.
  - by eapply reached_input.
Qed.

(** The matcher only records what it comes to from where it was sent. *)
Lemma calls_keys_reached fuel :
  (∀ v1 v2 m b m',
      value_reached pattern v1 → keys_reached pattern m →
      matchValues pattern graph fuel v1 v2 m = Returned (b, m') →
      keys_reached pattern m')
  ∧ (∀ n1 n2 m b m',
      reached pattern n1 → keys_reached pattern m →
      matchNodes pattern graph fuel n1 n2 m = Returned (b, m') →
      keys_reached pattern m').
Proof.
  induction fuel as [|fuel [IHv IHn]]; [split; intros; discriminate|].
  assert (Hloop : ∀ (l1 l2 : list nat) m b m',
            (∀ v, v ∈ l1 → value_reached pattern v) →
            keys_reached pattern m →
            for_all (fun i => matchValues pattern graph fuel
                                (at_index l1 i) (at_index l2 i))
                    0 (length l1) m = Returned (b, m') →
            keys_reached pattern m').
  { intros l1 l2 m b m' Hl1 Hm Hrun.
    apply (for_all_spec
             (fun m0 m0' => keys_reached pattern m0 → keys_reached pattern m0')
             (fun _ _ => True)) in Hrun.
    - by apply Hrun.
    - auto.
    - auto.
    - trivial.
    - intros i m0 b0 m0' Hi Hcall. split; [|trivial].
      intros Hm0. eapply IHv; [|exact Hm0|exact Hcall].
      apply Hl1, at_index_elem. lia. }
  split.
  - intros v1 v2 m b m' Hv1 Hm. rewrite matchValues_S.
    destruct (values_map_ m !! v1) eqn:Hfresh; [by intros [= _ <-]|].
    destruct (use_count_rejects pattern graph m v1 v2); [by intros [= _ <-]|].
    apply IHn; [by apply reached_of_value|].
    destruct Hm as [Hn Hv]. split; [exact Hn|].
    intros pv tv. simpl. destruct (decide (v1 = pv)) as [->|Hne].
    + by intros _.
    + rewrite lookup_insert_ne by exact Hne. apply Hv.
  - intros n1 n2 m b m' Hn1 Hm. rewrite matchNodes_S.
    destruct (nodes_map_ m !! n1) eqn:Hfresh; [by intros [= _ <-]|].
    case_bool_decide as Hparam; [by intros [= _ <-]|].
    destruct (negb _); [by intros [= _ <-]|].
    destruct (structure_rejects pattern graph n1 n2); [by intros [= _ <-]|].
    assert (Hset : keys_reached pattern (set_node n1 n2 m)).
    { destruct Hm as [Hn Hv]. split; [|exact Hv].
      intros pn tn. simpl. destruct (decide (n1 = pn)) as [->|Hne].
      - by intros _.
      - rewrite lookup_insert_ne by exact Hne. apply Hn. }
    unfold match_outputs, match_inputs.
    destruct (for_all _ 0 (length (outputs pattern n1)) (set_node n1 n2 m))
      as [[[] m1]| |] eqn:Houts; try discriminate.
    + apply Hloop in Houts; [|intros v Hv; exists n1; auto|exact Hset].
      apply Hloop; [intros v Hv; exists n1; auto|exact Houts].
    + intros [= _ <-].
      apply Hloop in Houts; [exact Houts|intros v Hv; exists n1; auto|exact Hset].
Qed.

(** All that holds of the state a successful attempt leaves behind. *)
Lemma attempt_sound fuel a m m' :
  attempt fuel a m = Returned (true, m') →
  anchor_ m' = a
  ∧ same_structure pattern graph m'
  ∧ use_counts_respected pattern graph m'
  ∧ in_anchor_block graph m'
  ∧ no_param_key pattern m'
  ∧ keys_reached pattern m'
  ∧ (kind pattern (pattern_root pattern) = prim_Param
     ∨ nodes_map_ m' !! pattern_root pattern = Some a)
  ∧ (∀ pv, is_Some (values_map_ m' !! pv) → value_matched pattern graph m' pv)
  ∧ (∀ pn, is_Some (nodes_map_ m' !! pn) → node_matched pattern graph m' pn).
Proof.
  intros Hrun.
  pose proof (attempt_later _ _ _ _ _ _ _ Hrun) as Hlater.
  destruct (attempt_complete _ _ _ _ _ _ Hrun) as (Hroot & V & N).
  apply attempt_returned in Hrun as [_ Hrun].
  split; [exact (later_anchor _ _ _ _ Hlater)|].
  split; [apply (later_same_structure _ _ Hlater);
          intros pn tn; simpl; by rewrite lookup_empty|].
  split; [apply (later_use_counts _ _ Hlater);
          intros pv tv; simpl; by rewrite lookup_empty|].
  split; [exact (later_in_anchor_block _ _ _ _ Hlater
                   (reset_in_anchor_block _ a m))|].
  split; [exact (later_no_param_key _ _ _ _ Hlater
                   (reset_no_param_key _ a m))|].
  split; [|by repeat split].
  eapply (proj2 (calls_keys_reached fuel)); [apply reached_root| |exact Hrun].
  split; intros k x; simpl; by rewrite lookup_empty.
Qed.

(** X1: in every reported match, a pattern node and the target node it is
    mapped to have the same kind, as many outputs and as many inputs. *)
Theorem reported_nodes_same_structure fuel ms mt pn tn :
  findPatternMatches pattern graph fuel = Returned ms → mt ∈ ms →
  nodes_map mt !! pn = Some tn →
  kind pattern pn = kind graph tn
  ∧ length (outputs pattern pn) = length (outputs graph tn)
  ∧ length (inputs pattern pn) = length (inputs graph tn).
Proof.
  intros Hfind Hmt Hpn.
  destruct (reported_from_attempt _ _ _ _ _ Hfind Hmt) as (m & m' & Hrun & Heq).
  rewrite Heq in Hpn. simpl in Hpn.
  destruct (attempt_sound _ _ _ _ Hrun) as (_ & Hstruct & _).
  by apply Hstruct.
Qed.

(** X2: in every reported match, the outputs and the inputs of a mapped
    pattern node are mapped, position by position, to the outputs and the
    inputs of its target node. *)
Theorem reported_nodes_carry_values fuel ms mt pn tn :
  findPatternMatches pattern graph fuel = Returned ms → mt ∈ ms →
  nodes_map mt !! pn = Some tn →
  (∀ i, i < length (outputs pattern pn) →
        values_map mt !! at_index (outputs pattern pn) i
        = Some (at_index (outputs graph tn) i))
  ∧ (∀ i, i < length (inputs pattern pn) →
          values_map mt !! at_index (inputs pattern pn) i
          = Some (at_index (inputs graph tn) i)).
Proof.
  intros Hfind Hmt Hpn.
  destruct (reported_from_attempt _ _ _ _ _ Hfind Hmt) as (m & m' & Hrun & Heq).
  rewrite Heq in Hpn |- *. simpl in Hpn |- *.
  destruct (attempt_sound _ _ _ _ Hrun) as (_ & _ & _ & _ & _ & _ & _ & _ & N).
  destruct (N pn) as (tn' & Hpn' & Houts & Hins); [eauto|].
  rewrite Hpn in Hpn'. injection Hpn' as <-. by split.
Qed.

(** X3: in every reported match, the defining node of a mapped pattern
    value is a placeholder or is mapped to the defining node of the target
    value. *)
Theorem reported_values_carry_nodes fuel ms mt pv tv :
  findPatternMatches pattern graph fuel = Returned ms → mt ∈ ms →
  values_map mt !! pv = Some tv →
  kind pattern (node pattern pv) = prim_Param
  ∨ nodes_map mt !! node pattern pv = Some (node graph tv).
Proof.
  intros Hfind Hmt Hpv.
  destruct (reported_from_attempt _ _ _ _ _ Hfind Hmt) as (m & m' & Hrun & Heq).
  rewrite Heq in Hpv |- *. simpl in Hpv |- *.
  destruct (attempt_sound _ _ _ _ Hrun) as (_ & _ & _ & _ & _ & _ & _ & V & _).
  destruct (V pv) as (tv' & Hpv' & Hnode); [eauto|].
  rewrite Hpv in Hpv'. by injection Hpv' as <-.
Qed.

(** X4: in every reported match, a pattern value and the target value it
    is mapped to have the same number of uses, unless the target value is
    defined by the anchor or the pattern value by a placeholder. *)
Theorem reported_values_use_counts fuel ms mt pv tv :
  findPatternMatches pattern graph fuel = Returned ms → mt ∈ ms →
  values_map mt !! pv = Some tv →
  length (uses pattern pv) = length (uses graph tv)
  ∨ node graph tv = anchor mt
  ∨ kind pattern (node pattern pv) = prim_Param.
Proof.
  intros Hfind Hmt Hpv.
  destruct (reported_from_attempt _ _ _ _ _ Hfind Hmt) as (m & m' & Hrun & Heq).
  rewrite Heq in Hpv. simpl in Hpv.
  destruct (attempt_sound _ _ _ _ Hrun) as (Hanchor & _ & Huse & _).
  rewrite <- Hanchor. by apply Huse.
Qed.

(** X5: in every reported match of a pattern whose root is not a
    placeholder, the root is mapped to the anchor, so the anchor has the
    kind of the root. *)
Theorem reported_root_is_anchor fuel ms mt :
  findPatternMatches pattern graph fuel = Returned ms → mt ∈ ms →
  kind pattern (pattern_root pattern) ≠ prim_Param →
  nodes_map mt !! pattern_root pattern = Some (anchor mt)
  ∧ kind graph (anchor mt) = kind pattern (pattern_root pattern).
Proof.
  intros Hfind Hmt Hparam.
  destruct (reported_from_attempt _ _ _ _ _ Hfind Hmt) as (m & m' & Hrun & Heq).
  destruct (attempt_sound _ _ _ _ Hrun)
    as (_ & Hstruct & _ & _ & _ & _ & [?|Hroot] & _); [done|].
  rewrite Heq at 1. simpl. split; [exact Hroot|].
  symmetry. by apply (Hstruct _ _ Hroot).
Qed.

(** X6: the maps of a reported match have no entry for what the attempt
    did not come to: every key of the node map is a reached pattern node,
    and every key of the value map is an output or an input of a reached
    node that is not a placeholder. *)
Theorem reported_keys_are_reached fuel ms mt :
  findPatternMatches pattern graph fuel = Returned ms → mt ∈ ms →
  (∀ pn tn, nodes_map mt !! pn = Some tn → reached pattern pn)
  ∧ (∀ pv tv, values_map mt !! pv = Some tv → value_reached pattern pv).
Proof.
  intros Hfind Hmt.
  destruct (reported_from_attempt _ _ _ _ _ Hfind Hmt) as (m & m' & Hrun & Heq).
  rewrite Heq. simpl.
  by destruct (attempt_sound _ _ _ _ Hrun) as (_ & _ & _ & _ & _ & Hkeys & _).
Qed.

(** X12: in every reported match, a target value bound to a pattern value
    that no placeholder defines is defined in the anchor's block: only
    placeholder values bind across blocks. *)
Theorem reported_values_in_anchor_block fuel ms mt pv tv :
  findPatternMatches pattern graph fuel = Returned ms → mt ∈ ms →
  values_map mt !! pv = Some tv →
  kind pattern (node pattern pv) ≠ prim_Param →
  owningBlock graph (node graph tv) = owningBlock graph (anchor mt).
Proof.
  intros Hfind Hmt Hpv Hparam.
  destruct (reported_from_attempt _ _ _ _ _ Hfind Hmt) as (m & m' & Hrun & Heq).
  rewrite Heq in Hpv. simpl in Hpv.
  destruct (attempt_sound _ _ _ _ Hrun)
    as (Hanchor & _ & _ & Hblock & _ & _ & _ & V & _).
  destruct (V pv) as (tv' & Hpv' & [?|Hnode]); [eauto|done|].
  rewrite Hpv in Hpv'. injection Hpv' as <-.
  rewrite <- Hanchor. by eapply Hblock.
Qed.

(** X14: in every reported match, where a mapped pattern node takes the
    same value at two input positions, its target node takes the same
    value at these two positions. *)
Theorem repeated_inputs_stay_repeated fuel ms mt pn tn i j :
  findPatternMatches pattern graph fuel = Returned ms → mt ∈ ms →
  nodes_map mt !! pn = Some tn →
  i < length (inputs pattern pn) → j < length (inputs pattern pn) →
  at_index (inputs pattern pn) i = at_index (inputs pattern pn) j →
  at_index (inputs graph tn) i = at_index (inputs graph tn) j.
Proof.
  intros Hfind Hmt Hpn Hi Hj Hsame.
  destruct (reported_from_attempt _ _ _ _ _ Hfind Hmt) as (m & m' & Hrun & Heq).
  rewrite Heq in Hpn. simpl in Hpn.
  destruct (attempt_sound _ _ _ _ Hrun) as (_ & _ & _ & _ & _ & _ & _ & _ & N).
  destruct (N pn) as (tn' & Hpn' & _ & Hins); [eauto|].
  rewrite Hpn in Hpn'. injection Hpn' as <-.
  pose proof (Hins i Hi) as Hvi. pose proof (Hins j Hj) as Hvj.
  rewrite Hsame, Hvj in Hvi. by injection Hvi.
Qed.

(** X7: a successful comparison is remembered: in the state it leaves
    behind, the same comparison returns true at once and changes nothing
    (for node comparisons, in states without placeholder keys, as all
    states of an attempt are). *)
Theorem successful_comparison_is_remembered (m : Matcher) :
  no_param_key pattern m →
  (∀ fuel v1 v2 m',
      matchValues pattern graph fuel v1 v2 m = Returned (true, m') →
      ∀ fuel', matchValues pattern graph (S fuel') v1 v2 m' = Returned (true, m'))
  ∧ (∀ fuel n1 n2 m',
      matchNodes pattern graph fuel n1 n2 m = Returned (true, m') →
      ∀ fuel', matchNodes pattern graph (S fuel') n1 n2 m' = Returned (true, m')).
Proof.
  intros Hkeys. split.
  - intros fuel v1 v2 m' Hrun fuel'.
    destruct (proj1 (calls_complete pattern graph fuel) _ _ _ _ Hrun) as [_ Hrec].
    rewrite matchValues_S, Hrec. by rewrite bool_decide_eq_true_2.
  - intros fuel n1 n2 m' Hrun fuel'.
    destruct (proj2 (calls_complete pattern graph fuel) _ _ _ _ Hrun)
      as [(Hlater & _) Hrec].
    rewrite matchNodes_S. destruct Hrec as [Hparam|Hrec].
    + destruct (nodes_map_ m' !! n1) as [tn|] eqn:Hn1.
      * by destruct (later_no_param_key _ _ _ _ Hlater Hkeys n1 tn Hn1).
      * by rewrite bool_decide_eq_true_2.
    + rewrite Hrec. by rewrite bool_decide_eq_true_2.
Qed.

(** X8: [matchesSubgraphFromAnchorNode] fails its assertion exactly when
    the exit node of the pattern does not have one input, whatever the
    anchor and the budget. *)
Theorem attempt_asserts_iff fuel a m :
  matchesSubgraphFromAnchorNode pattern graph fuel a m = AssertionFailure ↔
  length (inputs pattern (end_node pattern (block pattern))) ≠ 1.
Proof.
  rewrite attempt_unfold.
  destruct (Nat.eqb_spec
              (length (inputs pattern (end_node pattern (block pattern)))) 1)
    as [Hone|Hmore]; simpl.
  - split; [|done]. intros Hrun.
    by destruct (proj2 (calls_no_assert pattern graph fuel) _ _ _ Hrun).
  - by split.
Qed.
End Soundness.

(** ** What a returning search holds *)

Section Search.
Variables pattern graph : Graph.

(** What an attempt that returns contributes. *)
Lemma attempts_returned fuel n m b m' :
  matchesSubgraphFromAnchorNode pattern graph fuel n m = Returned (b, m') →
  attempts pattern graph fuel n = if b then [report n m'] else [].
Proof.
  intros Hrun. unfold attempts.
  rewrite (attempt_fresh pattern graph fuel n m_init m), Hrun. by destruct b.
Qed.

(** The loop over the nodes of one block, when it returns. *)
Lemma visit_nodes_returned fuel ns :
  ∀ d d', visit_nodes pattern graph fuel ns d = Returned d' →
          matches d' = matches d ++ (ns ≫= attempts pattern graph fuel)
          ∧ blocks_to_visit d' =
            reverse (ns ≫= blocks graph) ++ blocks_to_visit d.
Proof.
  induction ns as [|n ns IH]; intros d d'; simpl.
  - intros [= <-]. by rewrite app_nil_r.
  - destruct (matchesSubgraphFromAnchorNode pattern graph fuel n (drv_m d))
      as [[b m']| |] eqn:Hrun; try discriminate.
    intros Hrest. apply IH in Hrest as [-> ->]. simpl.
    rewrite push_all_reverse, reverse_app, <- !(assoc (++)).
    split; [|done].
    rewrite (attempts_returned _ _ _ _ _ Hrun).
    destruct b; simpl; by rewrite <- ?(assoc (++)).
Qed.

(** The loop over the stack only appends to the result vector. *)
Lemma visit_blocks_appends steps fuel :
  ∀ d d', visit_blocks pattern graph steps fuel d = Returned d' →
          ∃ more, matches d' = matches d ++ more.
Proof.
  induction steps as [|steps IH]; intros d d'.
  - simpl. destruct (blocks_to_visit d); [|discriminate].
    intros [= <-]. exists []. by rewrite app_nil_r.
  - rewrite visit_blocks_unfold.
    destruct (blocks_to_visit d) as [|b rest].
    { intros [= <-]. exists []. by rewrite app_nil_r. }
    destruct (visit_nodes pattern graph fuel (nodes graph b) _)
      as [d1| |] eqn:Hnodes; try discriminate.
    intros Hrest. apply visit_nodes_returned in Hnodes as [Hm _].
    apply IH in Hrest as [more ->]. rewrite Hm. simpl.
    eexists. by rewrite <- (assoc (++)).
Qed.

(** The loop over a stack of well-formed blocks, when it returns. *)
Lemma visit_blocks_returned fuel :
  ∀ steps ts d d',
    Forall (block_shaped graph) ts →
    blocks_to_visit d = bt_id <$> ts →
    visit_blocks pattern graph steps fuel d = Returned d' →
    matches d' ≡ₚ matches d ++ ((ts ≫= bt_nodes) ≫= attempts pattern graph fuel).
Proof.
  induction steps as [|steps IH]; intros ts d d' Hshaped Hstack.
  - simpl. rewrite Hstack. destruct ts as [|t rest]; [|discriminate].
    intros [= <-]. simpl. by rewrite app_nil_r.
  - rewrite visit_blocks_unfold, Hstack.
    destruct ts as [|[b ns] rest].
    { intros [= <-]. simpl. by rewrite app_nil_r. }
    apply Forall_cons in Hshaped as [Hb Hrest].
    apply block_shaped_inv in Hb as [Hnodes Hns].
    destruct (children_shaped graph ns Hns) as [Hblocks Hchildren].
    rewrite fmap_cons. cbn [bt_id]. rewrite Hnodes.
    destruct (visit_nodes pattern graph fuel (nt_id <$> ns) _)
      as [d1| |] eqn:Hvisit; try discriminate.
    apply visit_nodes_returned in Hvisit as [Hm Hs]. simpl in Hm, Hs.
    intros Hrun.
    apply (IH (reverse (ns ≫= nt_children) ++ rest)) in Hrun.
    + rewrite Hrun, Hm. simpl.
      rewrite <- (assoc (++)). apply Permutation_app_head.
      rewrite <- bind_app. apply bind_Permutation.
      rewrite !bind_app, reverse_Permutation, (assoc (++)).
      apply Permutation_app_tail, children_nodes.
    + apply Forall_app. split; [by apply Forall_reverse | done].
    + by rewrite Hs, Hblocks, fmap_app, fmap_reverse.
Qed.

(** The anchors of what the attempts at [ns] contribute are a sublist of
    [ns]. *)
Lemma attempts_anchors fuel ns :
  anchor <$> (ns ≫= attempts pattern graph fuel) `sublist_of` ns.
Proof.
  induction ns as [|n ns IH]; [done|].
  rewrite bind_cons, fmap_app.
  assert (Hn : anchor <$> attempts pattern graph fuel n = [n]
               ∨ anchor <$> attempts pattern graph fuel n = []).
  { unfold attempts.
    destruct (matchesSubgraphFromAnchorNode pattern graph fuel n m_init)
      as [[[] m']| |]; auto. }
  destruct Hn as [-> | ->]; simpl; by constructor.
Qed.

(** X9: on a target whose root block holds no node, the search for a valid
    pattern returns the empty sequence. *)
Theorem empty_target_has_no_match fuel :
  patternGraphIsValid pattern = true →
  nodes graph (block graph) = [] →
  findPatternMatches pattern graph (S fuel) = Returned [].
Proof.
  intros Hvalid Hempty. unfold findPatternMatches. rewrite Hvalid. simpl.
  rewrite Hempty. simpl. by destruct fuel.
Qed.

(** X10: the result of a search starts with the matches anchored in the
    root block, in the order of the block's nodes; matches anchored in
    nested blocks follow. *)
Theorem root_block_matches_come_first fuel ms :
  findPatternMatches pattern graph fuel = Returned ms →
  ∃ nested, ms = (nodes graph (block graph) ≫= attempts pattern graph fuel) ++ nested.
Proof.
  unfold findPatternMatches. destruct (negb _); [discriminate|].
  destruct (visit_blocks pattern graph fuel fuel _) as [d| |] eqn:Hrun;
    try discriminate.
  intros [= <-]. destruct fuel as [|steps]; [discriminate|].
  rewrite visit_blocks_unfold in Hrun. simpl in Hrun.
  destruct (visit_nodes pattern graph (S steps) (nodes graph (block graph)) _)
    as [d1| |] eqn:Hnodes; try discriminate.
  apply visit_nodes_returned in Hnodes as [Hm _]. simpl in Hm.
  apply visit_blocks_appends in Hrun as [nested ->].
  exists nested. by rewrite Hm.
Qed.

(** X11: on a well-formed target whose nodes are pairwise distinct, a
    search reports at most one match per node: the anchors of the result
    are pairwise distinct nodes of the target, and there are at most as
    many matches as nodes. *)
Theorem at_most_one_match_per_node fuel ms t :
  findPatternMatches pattern graph fuel = Returned ms →
  block_shaped graph t → bt_id t = block graph →
  NoDup (bt_nodes t) →
  NoDup (anchor <$> ms)
  ∧ (∀ mt, mt ∈ ms → anchor mt ∈ bt_nodes t)
  ∧ length ms ≤ length (bt_nodes t).
Proof.
  intros Hfind Ht Hroot Hdistinct.
  assert (Hperm : ms ≡ₚ bt_nodes t ≫= attempts pattern graph fuel).
  { revert Hfind. unfold findPatternMatches. destruct (negb _); [discriminate|].
    destruct (visit_blocks pattern graph fuel fuel _) as [d| |] eqn:Hrun;
      try discriminate.
    intros [= <-].
    apply (visit_blocks_returned fuel fuel [t]) in Hrun.
    - rewrite Hrun. simpl. by rewrite app_nil_r.
    - by apply Forall_singleton.
    - simpl. by rewrite Hroot. }
  pose proof (attempts_anchors fuel (bt_nodes t)) as Hsub.
  split; [rewrite Hperm; by eapply sublist_NoDup|]. split.
  - intros mt Hmt. rewrite Hperm in Hmt.
    eapply sublist_subseteq; [exact Hsub|]. by apply list_elem_of_fmap_2.
  - rewrite Hperm. apply sublist_length in Hsub.
    by rewrite length_fmap in Hsub.
Qed.
End Search.

(** ** A graph matched against itself *)

(** A loop none of whose iterations returns false, under an invariant. *)
Lemma for_all_never_false (I : Matcher → Prop) (body : nat → M) count :
  ∀ first m b m',
    (∀ i m0 b0 m0', first ≤ i < first + count → I m0 →
       body i m0 = Returned (b0, m0') → b0 = true ∧ I m0') →
    I m →
    for_all body first count m = Returned (b, m') → b = true ∧ I m'.
Proof.
  induction count as [|count IH]; intros first m b m' Hbody Hm; simpl.
  - by intros [= <- <-].
  - destruct (body first m) as [[b0 m0]| |] eqn:Hfirst; try discriminate.
    destruct (Hbody first m b0 m0 ltac:(lia) Hm Hfirst) as [-> Hm0].
    apply IH; [|exact Hm0]. intros i m1 b1 m1' Hi. apply Hbody. lia.
Qed.

Section SelfMatch.
Variable g : Graph.
Variable a0 : nat.
Hypothesis one_block :
  ∀ n, reached g n → kind g n ≠ prim_Param → owningBlock g n = owningBlock g a0.

Local Abbreviation inv :=
  (fun m : Matcher => identity_maps m ∧ anchor_ m = a0).

Lemma set_value_identity v m : inv m → inv (set_value v v m).
Proof.
  intros [[Hn Hv] Ha]. split; [split; [exact Hn|]|exact Ha].
  intros pv tv. simpl. destruct (decide (v = pv)) as [->|Hne].
  - rewrite lookup_insert_eq. by intros [= <-].
  - rewrite lookup_insert_ne by exact Hne. apply Hv.
Qed.

Lemma set_node_identity n m : inv m → inv (set_node n n m).
Proof.
  intros [[Hn Hv] Ha]. split; [split; [|exact Hv]|exact Ha].
  intros pn tn. simpl. destruct (decide (n = pn)) as [->|Hne].
  - rewrite lookup_insert_eq. by intros [= <-].
  - rewrite lookup_insert_ne by exact Hne. apply Hn.
Qed.

(** Comparing a reached value or node with itself never fails. *)
Lemma calls_identity fuel :
  (∀ v m b m',
      value_reached g v → inv m →
      matchValues g g fuel v v m = Returned (b, m') → b = true ∧ inv m')
  ∧ (∀ n m b m',
      reached g n → inv m →
      matchNodes g g fuel n n m = Returned (b, m') → b = true ∧ inv m').
Proof.
  induction fuel as [|fuel [IHv IHn]]; [split; intros; discriminate|].
  assert (Hloop : ∀ (l : list nat) m b m',
            (∀ v, v ∈ l → value_reached g v) → inv m →
            for_all (fun i => matchValues g g fuel (at_index l i) (at_index l i))
                    0 (length l) m = Returned (b, m') →
            b = true ∧ inv m').
  { intros l m b m' Hl Hm. apply (for_all_never_false inv); [|exact Hm].
    intros i m0 b0 m0' Hi Hm0. apply IHv; [|exact Hm0].
    apply Hl, at_index_elem. lia. }
  split.
  - intros v m b m' Hv Hm. rewrite matchValues_S.
    destruct (values_map_ m !! v) as [v'|] eqn:Hmapped.
    { intros [= <- <-]. split; [|exact Hm].
      apply bool_decide_eq_true. exact (proj2 (proj1 Hm) _ _ Hmapped). }
    replace (use_count_rejects g g m v v) with false.
    + apply IHn; [by apply reached_of_value | by apply set_value_identity].
    + symmetry. apply use_count_rejects_false. by left.
  - intros n m b m' Hn Hm. rewrite matchNodes_S.
    destruct (nodes_map_ m !! n) as [n'|] eqn:Hmapped.
    { intros [= <- <-]. split; [|exact Hm].
      apply bool_decide_eq_true. exact (proj1 (proj1 Hm) _ _ Hmapped). }
    case_bool_decide as Hparam; [by intros [= <- <-]|].
    rewrite bool_decide_eq_true_2
      by (rewrite (proj2 Hm); by apply one_block).
    simpl.
    replace (structure_rejects g g n n) with false
      by (symmetry; by apply structure_rejects_false).
    unfold match_outputs, match_inputs.
    destruct (for_all _ 0 (length (outputs g n)) (set_node n n m))
      as [[b1 m1]| |] eqn:Houts; try discriminate.
    apply Hloop in Houts as [-> Hm1];
      [|intros v Hv; exists n; auto|by apply set_node_identity].
    apply Hloop; [intros v Hv; exists n; auto|exact Hm1].
Qed.
End SelfMatch.

Lemma reached_in_pattern (g : Graph) (PN PV : gset nat) :
  finite_pattern g PN PV →
  length (inputs g (end_node g (block g))) = 1 →
  ∀ n, reached g n → n ∈ PN.
Proof.
  intros Hfin Hlen. induction 1 as [|pn v _ IH _ Hv|pn v _ IH _ Hv].
  - by apply (root_in_pattern g PN PV).
  - apply (fp_node _ _ _ Hfin). by apply (fp_outputs _ _ _ Hfin pn).
  - apply (fp_node _ _ _ Hfin). by apply (fp_inputs _ _ _ Hfin pn).
Qed.

(** X13: a finite graph with a valid exit node, whose reached nodes other
    than placeholders all lie in the block of its root, matches itself at
    its root: the attempt returns true, and both maps it leaves relate
    every key to itself. *)
Theorem graph_matches_itself (g : Graph) (PN PV : gset nat) (fuel : nat)
    (m : Matcher) :
  finite_pattern g PN PV →
  length (inputs g (end_node g (block g))) = 1 →
  (∀ n, reached g n → kind g n ≠ prim_Param →
        owningBlock g n = owningBlock g (pattern_root g)) →
  size PN + size PV < fuel →
  ∃ m', matchesSubgraphFromAnchorNode g g fuel (pattern_root g) m
        = Returned (true, m')
        ∧ (∀ pn tn, nodes_map_ m' !! pn = Some tn → tn = pn)
        ∧ (∀ pv tv, values_map_ m' !! pv = Some tv → tv = pv).
Proof.
  intros Hfin Hlen Hblock Hfuel.
  destruct (attempt_returns g g PN PV fuel (pattern_root g) m Hfin Hlen Hfuel)
    as (b & m' & Hrun).
  pose proof Hrun as Hcall. apply attempt_returned in Hcall as [_ Hcall].
  apply (proj2 (calls_identity g (pattern_root g) Hblock fuel)) in Hcall
    as [-> [[Hn Hv] _]].
  - by exists m'.
  - apply reached_root.
  - split; [split; intros k x; simpl; by rewrite lookup_empty | done].
Qed.

(** ** Injectivity of the node map *)

Section Injective.
Variables pattern graph : Graph.
Variable m' : Matcher.
Variable a : nat.
Variable rank : nat → nat.
Hypothesis wfP : def_use_consistent pattern.
Hypothesis wfG : def_use_consistent graph.
Hypothesis ranked : ∀ c v, v ∈ inputs graph c → rank (node graph v) < rank c.
Hypothesis live : no_dead_consumers pattern.
Hypothesis one_input :
  length (inputs pattern (end_node pattern (block pattern))) = 1.
Hypothesis structure : same_structure pattern graph m'.
Hypothesis counts : use_counts_respected pattern graph m'.
Hypothesis anchored : anchor_ m' = a.
Hypothesis no_param : no_param_key pattern m'.
Hypothesis keys : keys_reached pattern m'.
Hypothesis root :
  kind pattern (pattern_root pattern) = prim_Param
  ∨ nodes_map_ m' !! pattern_root pattern = Some a.
Hypothesis values_ok :
  ∀ pv, is_Some (values_map_ m' !! pv) → value_matched pattern graph m' pv.
Hypothesis nodes_ok :
  ∀ pn, is_Some (nodes_map_ m' !! pn) → node_matched pattern graph m' pn.
Hypothesis reached_ok :
  ∀ pn, reached pattern pn → kind pattern pn ≠ prim_Param →
        node_matched pattern graph m' pn.

Lemma lookup_at_index (l : list nat) (k x : nat) :
  l !! k = Some x ↔ k < length l ∧ at_index l k = x.
Proof.
  split.
  - intros Hk. split; [by eapply lookup_lt_Some | by apply nth_lookup_Some].
  - intros [Hk <-]. destruct (lookup_lt_is_Some_2 l k Hk) as [x Hx].
    by rewrite (nth_lookup_Some _ _ 0 _ Hx : at_index l k = x).
Qed.

(** The entry of a node carries its outputs. *)
Lemma entry_output p t i :
  nodes_map_ m' !! p = Some t → i < length (outputs pattern p) →
  values_map_ m' !! at_index (outputs pattern p) i
  = Some (at_index (outputs graph t) i).
Proof.
  intros Hp Hi. destruct (nodes_ok p) as (t' & Hp' & Houts & _); [eauto|].
  rewrite Hp in Hp'. injection Hp' as <-. by apply Houts.
Qed.

(** The entry of a node carries its inputs, slot by slot. *)
Lemma entry_input c tc k v tv :
  nodes_map_ m' !! c = Some tc → inputs pattern c !! k = Some v →
  values_map_ m' !! v = Some tv → inputs graph tc !! k = Some tv.
Proof.
  intros Hc Hk Hv. destruct (nodes_ok c) as (tc' & Hc' & _ & Hins); [eauto|].
  rewrite Hc in Hc'. injection Hc' as <-.
  apply lookup_at_index in Hk as [Hk <-].
  rewrite (Hins k Hk) in Hv. injection Hv as <-.
  apply lookup_at_index. split; [|done].
  destruct (structure c tc Hc) as (_ & _ & <-). exact Hk.
Qed.

(** The target of a value is defined by the target of its defining node. *)
Lemma entry_definer v tv t :
  values_map_ m' !! v = Some tv → nodes_map_ m' !! node pattern v = Some t →
  node graph tv = t.
Proof.
  intros Hv Hn. destruct (values_ok v) as (tv' & Hv' & Hdef); [eauto|].
  rewrite Hv in Hv'. injection Hv' as <-.
  destruct Hdef as [Hparam|Hdef]; [by destruct (no_param _ _ Hn)|].
  rewrite Hn in Hdef. by injection Hdef.
Qed.

Lemma root_entry t :
  nodes_map_ m' !! pattern_root pattern = Some t → t = a.
Proof.
  intros Ht. destruct root as [Hparam|Hroot]; [by destruct (no_param _ _ Ht)|].
  rewrite Ht in Hroot. by injection Hroot.
Qed.

(** Every target of the node map other than the anchor, reached from the
    root, ranks below the anchor. *)
Lemma image_rank p :
  reached pattern p →
  ∀ t, nodes_map_ m' !! p = Some t →
       (p = pattern_root pattern ∧ t = a) ∨ rank t < rank a.
Proof.
  induction 1 as [|pn v _ IH Hparam Hv|pn v Hpn IH Hparam Hv]; intros t Ht.
  - left. split; [done | by apply root_entry].
  - rewrite (du_outputs _ wfP _ _ Hv) in Ht |- *. by apply IH.
  - right. destruct (reached_ok pn Hpn Hparam) as (tn & Htn & _ & Hins).
    apply elem_at_index in Hv as (k & Hk & <-).
    pose proof (Hins k Hk) as Hvalue.
    rewrite <- (entry_definer _ _ _ Hvalue Ht).
    assert (rank (node graph (at_index (inputs graph tn) k)) < rank tn).
    { apply ranked, at_index_elem.
      destruct (structure pn tn Htn) as (_ & _ & <-). exact Hk. }
    destruct (IH tn Htn) as [[_ ->]|?]; lia.
Qed.

(** A reached node other than the root defines an input of a reached node
    that is not a placeholder. *)
Lemma reached_via_input p :
  reached pattern p →
  p = pattern_root pattern
  ∨ ∃ c v, reached pattern c ∧ kind pattern c ≠ prim_Param
           ∧ v ∈ inputs pattern c ∧ node pattern v = p.
Proof.
  induction 1 as [|pn v _ IH Hparam Hv|pn v Hpn _ Hparam Hv].
  - by left.
  - by rewrite (du_outputs _ wfP _ _ Hv).
  - right. by exists pn, v.
Qed.

(** What a use of an output of a mapped node other than the root gives. *)
Lemma use_is_mapped p t o tv c k :
  nodes_map_ m' !! p = Some t → rank t < rank a →
  o ∈ outputs pattern p → values_map_ m' !! o = Some tv →
  (c, k) ∈ uses pattern o →
  inputs pattern c !! k = Some o
  ∧ ∃ tc, nodes_map_ m' !! c = Some tc
          ∧ (tc, k) ∈ uses graph tv
          ∧ rank t < rank tc.
Proof.
  intros Hp Hlow Ho Hv Huse.
  assert (Hslot : inputs pattern c !! k = Some o) by by apply (du_uses _ wfP).
  split; [exact Hslot|].
  assert (Hdef : node pattern o = p) by by apply (du_outputs _ wfP).
  destruct (live p o c k) as [->|[Hc Hparam]];
    [by apply keys in Hp | by eapply no_param | exact Ho | exact Huse | |].
  - (* the exit node takes the output of the root only *)
    exfalso. apply lookup_at_index in Hslot as [Hk Hat].
    assert (k = 0) as -> by lia.
    assert (p = pattern_root pattern) as ->.
    { unfold pattern_root. by rewrite Hat. }
    apply root_entry in Hp. subst t. lia.
  - destruct (reached_ok c Hc Hparam) as (tc & Htc & _).
    exists tc. split; [exact Htc|].
    pose proof (entry_input _ _ _ _ _ Htc Hslot Hv) as Htslot.
    split; [by apply (du_uses _ wfG)|].
    rewrite <- Hdef in Hp. rewrite <- (entry_definer _ _ _ Hv Hp).
    apply ranked. by eapply list_elem_of_lookup_2.
Qed.

(** On well-formed graphs, with an acyclic target and a pattern without
    dead consumers, no two pattern nodes have the same target. *)
Lemma node_map_injective_here p1 p2 t :
  nodes_map_ m' !! p1 = Some t → nodes_map_ m' !! p2 = Some t → p1 = p2.
Proof.
  remember (rank a - rank t) as d eqn:Hd.
  revert t p1 p2 Hd.
  induction d as [d IH] using lt_wf_ind. intros t p1 p2 Hd Hp1 Hp2.
  pose proof (proj1 keys _ _ Hp1) as Hr1.
  pose proof (proj1 keys _ _ Hp2) as Hr2.
  destruct (image_rank p1 Hr1 t Hp1) as [[-> ->]|Hlow];
    [destruct (image_rank p2 Hr2 a Hp2) as [[-> _]|?]; [done|lia]|].
  destruct (image_rank p2 Hr2 t Hp2) as [[_ ->]|_]; [lia|].
  destruct (decide (p1 = p2)) as [|Hne]; [done|exfalso].
  (* an output of [p1] that is used *)
  destruct (reached_via_input p1 Hr1) as [->|(c1 & o1 & Hc1 & Hparam1 & Hin1 & Hdef1)].
  { apply root_entry in Hp1. subst t. lia. }
  pose proof (du_defined _ wfP _ _ Hin1) as Hout1. rewrite Hdef1 in Hout1.
  apply elem_at_index in Hout1 as (i & Hi1 & Ho1).
  (* the output of [p2] at the same position *)
  destruct (structure p1 t Hp1) as (_ & Hlen1 & _).
  destruct (structure p2 t Hp2) as (_ & Hlen2 & _).
  assert (Hi2 : i < length (outputs pattern p2)) by lia.
  pose proof (entry_output p1 t i Hp1 Hi1) as Hv1. rewrite Ho1 in Hv1.
  pose proof (entry_output p2 t i Hp2 Hi2) as Hv2.
  assert (Hin_o1 : o1 ∈ outputs pattern p1)
    by (rewrite <- Ho1; by apply at_index_elem).
  assert (Hin_o2 : at_index (outputs pattern p2) i ∈ outputs pattern p2)
    by by apply at_index_elem.
  remember (at_index (outputs pattern p2) i) as o2 eqn:Ho2.
  remember (at_index (outputs graph t) i) as tv eqn:Htvdef.
  clear Ho2 Htvdef.
  assert (Hdef2 : node pattern o2 = p2) by by apply (du_outputs _ wfP).
  assert (Hdiff : o1 ≠ o2) by congruence.
  (* both have as many uses as their common target *)
  assert (Htv : node graph tv = t).
  { apply (entry_definer o1); [exact Hv1 | by rewrite Hdef1]. }
  assert (Hcount : ∀ o p, node pattern o = p → nodes_map_ m' !! p = Some t →
                          values_map_ m' !! o = Some tv →
                          length (uses pattern o) = length (uses graph tv)).
  { intros o p Hdef Hp Hv. destruct (counts o tv Hv) as [?|[Hanchor|Hparam]].
    - done.
    - rewrite Htv, anchored in Hanchor. rewrite Hanchor in Hlow. lia.
    - rewrite Hdef in Hparam. by destruct (no_param _ _ Hp). }
  pose proof (Hcount o1 p1 Hdef1 Hp1 Hv1) as Hcount1.
  pose proof (Hcount o2 p2 Hdef2 Hp2 Hv2) as Hcount2.
  (* [o1] has a use *)
  assert (Hused : 0 < length (uses pattern o1)).
  { apply list_elem_of_lookup in Hin1 as [k Hk].
    apply (du_uses _ wfP) in Hk. destruct (uses pattern o1); [|simpl; lia].
    by apply elem_of_nil in Hk. }
  (* yet the uses of both are sent to distinct uses of the target *)
  remember (fun u : nat * nat => (default 0 (nodes_map_ m' !! u.1), u.2))
    as f eqn:Hf.
  assert (Hsend : ∀ u, u ∈ uses pattern o1 ++ uses pattern o2 →
            ∃ o tc, (o = o1 ∨ o = o2) ∧ inputs pattern u.1 !! u.2 = Some o
                    ∧ nodes_map_ m' !! u.1 = Some tc
                    ∧ f u = (tc, u.2) ∧ (tc, u.2) ∈ uses graph tv
                    ∧ rank t < rank tc).
  { intros [c k] Hu. apply elem_of_app in Hu as [Hu|Hu].
    - destruct (use_is_mapped p1 t o1 tv c k Hp1 Hlow Hin_o1 Hv1 Hu)
        as (Hslot & tc & Htc & Htu & Hrk).
      exists o1, tc. rewrite Hf. simpl. rewrite Htc. auto 10.
    - destruct (use_is_mapped p2 t o2 tv c k Hp2 Hlow Hin_o2 Hv2 Hu)
        as (Hslot & tc & Htc & Htu & Hrk).
      exists o2, tc. rewrite Hf. simpl. rewrite Htc. auto 10. }
  assert (Hlen : length (uses pattern o1 ++ uses pattern o2)
                 ≤ length (uses graph tv)).
  { rewrite <- (length_fmap f). apply submseteq_length, NoDup_submseteq.
    - apply NoDup_fmap_2_strong.
      + intros [c k] [c' k'] Hu Hu' Heq.
        destruct (Hsend _ Hu) as (_ & tc & _ & _ & Htc & Hfu & _ & Hrk).
        destruct (Hsend _ Hu') as (_ & tc' & _ & _ & Htc' & Hfu' & _ & _).
        rewrite Hfu, Hfu' in Heq. simpl in *. injection Heq as <- <-.
        f_equal. apply (IH (rank a - rank tc) ltac:(lia) tc); done.
      + apply NoDup_app. split; [apply (du_nodup _ wfP)|].
        split; [|apply (du_nodup _ wfP)].
        intros [c k] Hu Hu'.
        apply (du_uses _ wfP) in Hu, Hu'. congruence.
    - intros u' Hu'. apply list_elem_of_fmap in Hu' as (u & -> & Hu).
      destruct (Hsend _ Hu) as (_ & tc & _ & _ & _ & -> & Htu & _). exact Htu. }
  rewrite length_app in Hlen. lia.
Qed.
End Injective.

Section NodeMapOfMatch.
Variables pattern graph : Graph.

(** C7 (as amended): the node map of every reported match has an entry for
    every pattern node reached by the attempt that is not a placeholder,
    and no entry for any placeholder; and no two pattern nodes have the
    same target node, provided pattern and target are consistent in their
    def-use bookkeeping, the target is acyclic and the pattern has no dead
    consumers. *)
Theorem node_map_covers_reached fuel ms mt :
  findPatternMatches pattern graph fuel = Returned ms → mt ∈ ms →
  (∀ pn, reached pattern pn → kind pattern pn ≠ prim_Param →
         is_Some (nodes_map mt !! pn))
  ∧ (∀ pn, kind pattern pn = prim_Param → nodes_map mt !! pn = None)
  ∧ (def_use_consistent pattern → def_use_consistent graph →
     acyclic graph → no_dead_consumers pattern →
     ∀ p1 p2 t, nodes_map mt !! p1 = Some t → nodes_map mt !! p2 = Some t →
                p1 = p2).
Proof.
  intros Hfind Hmt.
  destruct (reported_from_attempt _ _ _ _ _ Hfind Hmt) as (m & m' & Hrun & Heq).
  rewrite Heq. simpl.
  destruct (attempt_sound _ _ _ _ _ _ Hrun)
    as (Hanchor & Hstruct & Huse & _ & Hkeyless & Hkeys & Hroot & V & N).
  split; [|split].
  - intros pn Hreached Hparam.
    destruct (attempt_reached _ _ _ _ _ _ Hrun pn Hreached Hparam) as (tn & Hpn & _).
    eauto.
  - intros pn Hparam.
    destruct (nodes_map_ m' !! pn) as [tn|] eqn:Hpn; [|reflexivity].
    by destruct (Hkeyless pn tn Hpn).
  - intros wfP wfG [rank Hrank] Hlive p1 p2 t.
    apply (node_map_injective_here pattern graph m' (anchor mt) rank);
      try assumption.
    + by apply attempt_returned in Hrun as [? _].
    + apply (attempt_reached _ _ _ _ _ _ Hrun).
Qed.
End NodeMapOfMatch.

(** * The properties on concrete graphs *)

Import Examples.

Ltac shaped := repeat first [reflexivity | constructor].

(** The scenario of the specification: [Param -> Add -> Exit] is found
    exactly once in [Const(5) -> Add(x, 5) -> Mul(_, 2)], at the [Add]. *)
Example scenario_add :
  findPatternMatches pat_add tgt_add_mul 10 = Returned [add_match].
Proof. vm_compute. reflexivity. Qed.

(** The boundary exception on whole graphs: three uses of the anchor's
    output do not prevent the match, three uses of an interior value do. *)
Example scenario_use_counts :
  findPatternMatches pat_chain tgt_boundary 10 =
  Returned [{| anchor := 12;
               nodes_map := {[2 := 11; 3 := 12]};
               values_map := {[1 := 10; 2 := 11; 3 := 12]} |}]
  ∧ findPatternMatches pat_chain tgt_interior 10 = Returned [].
Proof. split; vm_compute; reflexivity. Qed.

Example valid_patterns :
  patternGraphIsValid pat_add = true ∧ patternGraphIsValid tgt_nested = false.
Proof. split; reflexivity. Qed.

Lemma param_pattern_matches_every_node_witness :
  ∃ ms,
    (∀ fuel, bt_size tree_nested ≤ fuel →
             findPatternMatches pat_param tgt_nested fuel = Returned ms)
    ∧ ms ≡ₚ (fun n => {| anchor := n; nodes_map := ∅; values_map := ∅ |})
            <$> bt_nodes tree_nested.
Proof.
  apply (param_pattern_matches_every_node pat_param tgt_nested 1 1 tree_nested).
  - split; [|repeat split].
    intros n Hn. by apply list_elem_of_singleton in Hn.
  - shaped.
  - reflexivity.
Defined.

Lemma patternGraphIsValid_iff_witness :
  (∀ n, n ∈ graph_nodes pat_add → blocks pat_add n = [])
  ∧ length (inputs pat_add (end_node pat_add (block pat_add))) = 1.
Proof. apply (proj1 (patternGraphIsValid_iff pat_add)). reflexivity. Defined.

Lemma matchValues_use_count_rule_witness :
  matchValues pat_chain tgt_interior 1 2 11 (set_value 3 12 (at_root 3 12))
  = Returned (false, set_value 3 12 (at_root 3 12))
  ∧ matchValues pat_chain tgt_boundary 2 3 12 (at_root 3 12)
    = Returned (true, set_value 3 12 (at_root 3 12)).
Proof.
  split.
  - destruct (matchValues_use_count_rule pat_chain tgt_interior 0 2 11
                (set_value 3 12 (at_root 3 12))) as (Hfail & _ & _).
    + reflexivity.
    + vm_compute. discriminate.
    + apply Hfail; vm_compute; discriminate.
  - destruct (matchValues_use_count_rule pat_chain tgt_boundary 0 3 12
                (at_root 3 12)) as (_ & _ & Hok).
    + reflexivity.
    + vm_compute. discriminate.
    + apply Hok; reflexivity.
Defined.

Lemma matchNodes_structural_rule_witness :
  matchNodes pat_add tgt_add3 1 2 12 (reset 12 m_init)
  = Returned (false, reset 12 m_init).
Proof.
  destruct (matchNodes_structural_rule pat_add tgt_add3 0 2 12 (reset 12 m_init))
    as (_ & Harity).
  - reflexivity.
  - vm_compute. discriminate.
  - apply Harity; reflexivity.
Defined.

Lemma matchNodes_param_matches_everything_witness :
  owningBlock tgt_nested 20 ≠ owningBlock tgt_nested (anchor_ (at_root 2 22))
  ∧ matchNodes pat_neg tgt_nested 1 1 20 (at_root 2 22)
    = Returned (true, at_root 2 22)
  ∧ matchValues pat_neg tgt_nested 2 1 20 (at_root 2 22)
    = Returned (true, set_value 1 20 (at_root 2 22)).
Proof.
  destruct (matchNodes_param_matches_everything pat_neg tgt_nested 0 1
              (at_root 2 22)) as (Hnode & Hvalue).
  - reflexivity.
  - reflexivity.
  - split; [vm_compute; discriminate|].
    split; [apply Hnode | apply Hvalue; reflexivity].
Defined.

Lemma maps_write_once_witness :
  values_map_ (set_value 2 11 (set_value 3 12 (at_root 2 12))) !! 3 = Some 12
  ∧ matchValues pat_add tgt_add_mul 1 3 12
      (set_value 2 11 (set_value 3 12 (at_root 2 12)))
    = Returned (true, set_value 2 11 (set_value 3 12 (at_root 2 12)))
  ∧ matchValues pat_add tgt_add_mul 1 3 14
      (set_value 2 11 (set_value 3 12 (at_root 2 12)))
    = Returned (false, set_value 2 11 (set_value 3 12 (at_root 2 12))).
Proof.
  destruct (maps_write_once pat_add tgt_add_mul) as (_ & _ & Hvalues & _).
  destruct (Hvalues (set_value 3 12 (at_root 2 12))
                    (set_value 2 11 (set_value 3 12 (at_root 2 12))) 3 12)
    as (Hkept & Hagain).
  - apply later_value; [apply later_now | reflexivity | reflexivity].
  - reflexivity.
  - split; [exact Hkept|]. split; [apply (Hagain 0 12) | apply (Hagain 0 14)].
Defined.

(** The literal scoping rule fails for a placeholder: in the attempt at
    node 22 of the loop body, the placeholder is compared with node 20 of
    the enclosing block and [matchNodes] returns true; the attempt
    succeeds and binds the placeholder's value to a value defined outside
    the anchor's block. *)
Lemma scope_rule_skipped_for_param :
  owningBlock tgt_nested 20 ≠ owningBlock tgt_nested (anchor_ (at_root 2 22))
  ∧ matchNodes pat_neg tgt_nested 1 1 20 (at_root 2 22)
    = Returned (true, at_root 2 22)
  ∧ matchesSubgraphFromAnchorNode pat_neg tgt_nested 10 22 m_init
    = Returned (true, set_value 1 20 (set_value 2 22 (at_root 2 22))).
Proof.
  split; [vm_compute; discriminate|].
  split; vm_compute; reflexivity.
Qed.

Lemma node_map_in_anchor_block_witness :
  nodes_map (neg_match 22 20) !! 2 = Some 22
  ∧ owningBlock tgt_nested 22 = owningBlock tgt_nested (anchor (neg_match 22 20))
  ∧ matchNodes pat_neg tgt_nested 1 2 20 (reset 22 m_init)
    = Returned (false, reset 22 m_init).
Proof.
  destruct (node_map_in_anchor_block pat_neg tgt_nested)
    as (Hreset & _ & Hfail & _ & Hreported).
  split; [reflexivity|]. split.
  - apply (Hreported 10 [neg_match 25 21; neg_match 22 20; neg_match 24 22]
             (neg_match 22 20)) with (pn := 2).
    + vm_compute. reflexivity.
    + apply list_elem_of_further, list_elem_of_here.
    + reflexivity.
  - apply Hfail; [apply Hreset | discriminate | vm_compute; discriminate].
Defined.

(** The node map of a reported match need not be injective, and a
    placeholder that was compared gets no entry: the two constants of the
    pattern are both mapped to the one constant of the target, and the
    placeholder of [Param -> Neg -> Exit], reached from [Neg], is absent
    from the node map of the match at 22. *)
Lemma node_map_not_injective_and_skips_param :
  findPatternMatches pat_two_consts tgt_double 10 =
  Returned [{| anchor := 12;
               nodes_map := {[1 := 11; 2 := 11; 3 := 12]};
               values_map := {[1 := 11; 2 := 11; 3 := 12]} |}]
  ∧ patternGraphIsValid pat_two_consts = true
  ∧ findPatternMatches pat_neg tgt_nested 10 =
    Returned [neg_match 25 21; neg_match 22 20; neg_match 24 22]
  ∧ reached pat_neg 1
  ∧ kind pat_neg 1 = prim_Param
  ∧ nodes_map (neg_match 22 20) !! 1 = None.
Proof.
  split; [vm_compute; reflexivity|].
  split; [reflexivity|].
  split; [vm_compute; reflexivity|].
  split; [|split; reflexivity].
  apply (reached_input pat_neg 2 1);
    [apply reached_root | discriminate | apply list_elem_of_here].
Qed.

(** Case analysis over the node or value numbers of a table (all below
    18), and over the members of a concrete list. *)
Ltac by_node n tac := do 18 (destruct n as [|n]; [tac|]); tac.

Ltac in_list H tac :=
  cbn in H;
  repeat (apply elem_of_cons in H as [H|H]; [tac H|]);
  by apply elem_of_nil in H.

Ltac decided := apply (bool_decide_unpack _); vm_compute; exact I.

(** [pat_chain] and [tgt_boundary] are consistent in their def-use
    bookkeeping: the tables derive the defining node and the uses of a
    value from the rows. *)
Lemma pat_chain_consistent : def_use_consistent pat_chain.
Proof.
  split.
  - intros n v Hv.
    by_node n ltac:(in_list Hv ltac:(fun H => rewrite H; reflexivity)).
  - intros c v Hv.
    by_node c ltac:(in_list Hv ltac:(fun H => rewrite H; decided)).
  - intros v c k. split.
    + intros Hu.
      by_node v ltac:(in_list Hu ltac:(fun H => injection H as -> ->; reflexivity)).
    + intros Hk.
      by_node c ltac:(cbn in Hk;
                      repeat (destruct k as [|k];
                              [injection Hk as <-; decided | cbn in Hk]);
                      discriminate).
  - intros v. by_node v ltac:(cbn; decided).
Qed.

Lemma tgt_boundary_consistent : def_use_consistent tgt_boundary.
Proof.
  split.
  - intros n v Hv.
    by_node n ltac:(in_list Hv ltac:(fun H => rewrite H; reflexivity)).
  - intros c v Hv.
    by_node c ltac:(in_list Hv ltac:(fun H => rewrite H; decided)).
  - intros v c k. split.
    + intros Hu.
      by_node v ltac:(in_list Hu ltac:(fun H => injection H as -> ->; reflexivity)).
    + intros Hk.
      by_node c ltac:(cbn in Hk;
                      repeat (destruct k as [|k];
                              [injection Hk as <-; decided | cbn in Hk]);
                      discriminate).
  - intros v. by_node v ltac:(cbn; decided).
Qed.

(** In [tgt_boundary] every input is defined by a node with a smaller
    number. *)
Lemma tgt_boundary_acyclic : acyclic tgt_boundary.
Proof.
  exists (fun n => n). intros c v Hv.
  by_node c ltac:(in_list Hv ltac:(fun H => rewrite H; vm_compute; lia)).
Qed.

(** In [pat_chain] the output of [Neg] is used by [Relu] and that of
    [Relu] by the exit node. *)
Lemma pat_chain_live : no_dead_consumers pat_chain.
Proof.
  intros pn v c k _ Hkind Hv Hu.
  assert (Hroot : reached pat_chain 3) by exact (reached_root pat_chain).
  by_node pn ltac:(in_list Hv ltac:(fun H =>
    rewrite H in Hu;
    in_list Hu ltac:(fun H' =>
      injection H' as -> ->;
      first [ by left | right; split; [exact Hroot | discriminate] ]))).
Qed.

(** [pat_two_consts] has dead consumers: node 4 uses the first constant
    and is not reached. *)
Example pat_two_consts_has_dead_consumers : ¬ no_dead_consumers pat_two_consts.
Proof.
  intros Hlive.
  destruct (Hlive 1 1 4 0) as [Hexit|[Hreached _]].
  - exact (reached_input pat_two_consts 3 1 (reached_root pat_two_consts)
             ltac:(discriminate) ltac:(decided)).
  - discriminate.
  - decided.
  - decided.
  - discriminate Hexit.
  - apply (reached_in_pattern pat_two_consts (list_to_set [1; 2; 3; 6])
             (list_to_set [1; 2; 3])) in Hreached;
      [|apply closed_lists_sound; reflexivity|reflexivity].
    apply elem_of_list_to_set in Hreached.
    repeat (apply elem_of_cons in Hreached as [Hreached|Hreached];
            [discriminate|]).
    by apply elem_of_nil in Hreached.
Qed.

Lemma node_map_covers_reached_witness :
  (∀ pn, reached pat_chain pn → kind pat_chain pn ≠ prim_Param →
         is_Some (nodes_map chain_match !! pn))
  ∧ (∀ pn, kind pat_chain pn = prim_Param → nodes_map chain_match !! pn = None)
  ∧ (∀ p1 p2 t, nodes_map chain_match !! p1 = Some t →
                nodes_map chain_match !! p2 = Some t → p1 = p2).
Proof.
  destruct (node_map_covers_reached pat_chain tgt_boundary 10
              [chain_match] chain_match) as (Hcovers & Hparam & Hinj).
  - vm_compute. reflexivity.
  - apply list_elem_of_here.
  - split; [exact Hcovers|]. split; [exact Hparam|].
    apply Hinj.
    + exact pat_chain_consistent.
    + exact tgt_boundary_consistent.
    + exact tgt_boundary_acyclic.
    + exact pat_chain_live.
Defined.

(** A pattern whose node consumes its own output is matched, in a target
    of the same shape, without the recursion running away. *)
Example scenario_cycle :
  findPatternMatches pat_cycle tgt_cycle 10 =
  Returned [{| anchor := 12;
               nodes_map := {[2 := 12]};
               values_map := {[1 := 11; 2 := 12]} |}].
Proof. vm_compute. reflexivity. Qed.

Lemma attempt_terminates_witness :
  ∃ r, r ≠ OutOfFuel
       ∧ ∀ fuel, size (list_to_set [1; 2; 3] : gset nat)
                 + size (list_to_set [1; 2] : gset nat) < fuel →
                 matchesSubgraphFromAnchorNode pat_cycle tgt_cycle fuel 12 m_init
                 = r.
Proof.
  destruct (attempt_terminates pat_cycle tgt_cycle
              (list_to_set [1; 2; 3]) (list_to_set [1; 2])) as (Hret & _).
  - apply closed_lists_sound. reflexivity.
  - apply (Hret 12 m_init).
Defined.

Lemma findPatternMatches_outcome_witness :
  findPatternMatches tgt_nested tgt_add_mul 10 = AssertionFailure
  ∧ ∃ ms,
      (∀ fuel, size (list_to_set [1; 2; 3] : gset nat)
               + size (list_to_set [1; 2; 3] : gset nat)
               + bt_size (BlockT 0 [NodeT 11 []; NodeT 12 []; NodeT 13 [];
                                    NodeT 14 []]) < fuel →
               findPatternMatches pat_add tgt_add_mul fuel = Returned ms)
      ∧ ms ≡ₚ [11; 12; 13; 14] ≫=
              attempts pat_add tgt_add_mul
                (S (size (list_to_set [1; 2; 3] : gset nat)
                    + size (list_to_set [1; 2; 3] : gset nat)
                    + bt_size (BlockT 0 [NodeT 11 []; NodeT 12 []; NodeT 13 [];
                                         NodeT 14 []]))).
Proof.
  split.
  - apply (proj1 (findPatternMatches_outcome tgt_nested tgt_add_mul)).
    reflexivity.
  - apply (proj2 (proj2 (findPatternMatches_outcome pat_add tgt_add_mul))
             eq_refl (list_to_set [1; 2; 3]) (list_to_set [1; 2; 3])
             (BlockT 0 [NodeT 11 []; NodeT 12 []; NodeT 13 []; NodeT 14 []])).
    + apply closed_lists_sound. reflexivity.
    + shaped.
    + reflexivity.
Defined.

(** ** Further properties on concrete graphs *)

Lemma reported_nodes_same_structure_witness :
  kind pat_add 2 = kind tgt_add_mul 12
  ∧ length (outputs pat_add 2) = length (outputs tgt_add_mul 12)
  ∧ length (inputs pat_add 2) = length (inputs tgt_add_mul 12).
Proof.
  apply (reported_nodes_same_structure pat_add tgt_add_mul 10
           [add_match] add_match 2 12).
  - vm_compute. reflexivity.
  - apply list_elem_of_here.
  - reflexivity.
Defined.

Lemma reported_nodes_carry_values_witness :
  (∀ i, i < length (outputs pat_add 2) →
        values_map add_match !! at_index (outputs pat_add 2) i
        = Some (at_index (outputs tgt_add_mul 12) i))
  ∧ (∀ i, i < length (inputs pat_add 2) →
          values_map add_match !! at_index (inputs pat_add 2) i
          = Some (at_index (inputs tgt_add_mul 12) i)).
Proof.
  apply (reported_nodes_carry_values pat_add tgt_add_mul 10
           [add_match] add_match 2 12).
  - vm_compute. reflexivity.
  - apply list_elem_of_here.
  - reflexivity.
Defined.

Lemma reported_values_carry_nodes_witness :
  kind pat_add (node pat_add 3) = prim_Param
  ∨ nodes_map add_match !! node pat_add 3 = Some (node tgt_add_mul 12).
Proof.
  apply (reported_values_carry_nodes pat_add tgt_add_mul 10
           [add_match] add_match 3 12).
  - vm_compute. reflexivity.
  - apply list_elem_of_here.
  - reflexivity.
Defined.

Lemma reported_values_use_counts_witness :
  length (uses pat_chain 2) = length (uses tgt_boundary 11)
  ∨ node tgt_boundary 11 = anchor chain_match
  ∨ kind pat_chain (node pat_chain 2) = prim_Param.
Proof.
  apply (reported_values_use_counts pat_chain tgt_boundary 10
           [chain_match] chain_match 2 11).
  - vm_compute. reflexivity.
  - apply list_elem_of_here.
  - reflexivity.
Defined.

Lemma reported_root_is_anchor_witness :
  nodes_map add_match !! pattern_root pat_add = Some (anchor add_match)
  ∧ kind tgt_add_mul (anchor add_match) = kind pat_add (pattern_root pat_add).
Proof.
  apply (reported_root_is_anchor pat_add tgt_add_mul 10 [add_match] add_match).
  - vm_compute. reflexivity.
  - apply list_elem_of_here.
  - vm_compute. discriminate.
Defined.

Lemma reported_keys_are_reached_witness :
  (∀ pn tn, nodes_map add_match !! pn = Some tn → reached pat_add pn)
  ∧ (∀ pv tv, values_map add_match !! pv = Some tv → value_reached pat_add pv).
Proof.
  apply (reported_keys_are_reached pat_add tgt_add_mul 10 [add_match] add_match).
  - vm_compute. reflexivity.
  - apply list_elem_of_here.
Defined.

Lemma reported_values_in_anchor_block_witness :
  owningBlock tgt_nested (node tgt_nested 22)
  = owningBlock tgt_nested (anchor (neg_match 22 20)).
Proof.
  apply (reported_values_in_anchor_block pat_neg tgt_nested 10
           [neg_match 25 21; neg_match 22 20; neg_match 24 22]
           (neg_match 22 20) 2 22).
  - vm_compute. reflexivity.
  - apply list_elem_of_further, list_elem_of_here.
  - reflexivity.
  - vm_compute. discriminate.
Defined.

Lemma successful_comparison_is_remembered_witness :
  matchNodes pat_add tgt_add_mul 1 2 12
    (set_value 2 11 (set_value 1 10 (set_value 3 12 (at_root 2 12))))
  = Returned (true, set_value 2 11 (set_value 1 10 (set_value 3 12 (at_root 2 12))))
  ∧ matchValues pat_add tgt_add_mul 1 3 12 (set_value 3 12 (at_root 2 12))
    = Returned (true, set_value 3 12 (at_root 2 12)).
Proof.
  split.
  - destruct (successful_comparison_is_remembered pat_add tgt_add_mul
                (reset 12 m_init)) as (_ & Hnodes).
    + intros pn tn. simpl. by rewrite lookup_empty.
    + apply (Hnodes 10 2 12). vm_compute. reflexivity.
  - destruct (successful_comparison_is_remembered pat_add tgt_add_mul
                (at_root 2 12)) as (Hvalues & _).
    + intros pn tn. unfold at_root. simpl.
      destruct (decide (2 = pn)) as [<-|Hne].
      * intros _. vm_compute. discriminate.
      * rewrite lookup_insert_ne by exact Hne. by rewrite lookup_empty.
    + apply (Hvalues 10 3 12). vm_compute. reflexivity.
Defined.

Lemma empty_target_has_no_match_witness :
  findPatternMatches pat_add tgt_empty 1 = Returned [].
Proof.
  apply (empty_target_has_no_match pat_add tgt_empty 0); reflexivity.
Defined.

Lemma root_block_matches_come_first_witness :
  ∃ nested,
    [neg_match 25 21; neg_match 22 20; neg_match 24 22]
    = (nodes tgt_nested (block tgt_nested) ≫= attempts pat_neg tgt_nested 10)
      ++ nested.
Proof.
  apply (root_block_matches_come_first pat_neg tgt_nested 10).
  vm_compute. reflexivity.
Defined.

Lemma at_most_one_match_per_node_witness :
  NoDup (anchor <$> [neg_match 25 21; neg_match 22 20; neg_match 24 22])
  ∧ (∀ mt, mt ∈ [neg_match 25 21; neg_match 22 20; neg_match 24 22] →
           anchor mt ∈ bt_nodes tree_nested)
  ∧ length [neg_match 25 21; neg_match 22 20; neg_match 24 22]
    ≤ length (bt_nodes tree_nested).
Proof.
  apply (at_most_one_match_per_node pat_neg tgt_nested 10 _ tree_nested).
  - vm_compute. reflexivity.
  - shaped.
  - reflexivity.
  - apply (bool_decide_unpack _). vm_compute. exact I.
Defined.

(** The reached nodes of [pat_add] all lie in its one block. *)
Lemma pat_add_one_block :
  ∀ n, reached pat_add n → kind pat_add n ≠ prim_Param →
       owningBlock pat_add n = owningBlock pat_add (pattern_root pat_add).
Proof.
  intros n Hn _.
  apply (reached_in_pattern pat_add (list_to_set [1; 2; 3])
           (list_to_set [1; 2; 3])) in Hn;
    [|apply closed_lists_sound; reflexivity|reflexivity].
  apply elem_of_list_to_set in Hn.
  repeat (apply elem_of_cons in Hn as [->|Hn]; [reflexivity|]).
  by apply elem_of_nil in Hn.
Qed.

Lemma graph_matches_itself_witness :
  ∃ m', matchesSubgraphFromAnchorNode pat_add pat_add 7 (pattern_root pat_add)
          m_init = Returned (true, m')
        ∧ (∀ pn tn, nodes_map_ m' !! pn = Some tn → tn = pn)
        ∧ (∀ pv tv, values_map_ m' !! pv = Some tv → tv = pv).
Proof.
  apply (graph_matches_itself pat_add (list_to_set [1; 2; 3])
           (list_to_set [1; 2; 3]) 7 m_init).
  - apply closed_lists_sound. reflexivity.
  - reflexivity.
  - apply pat_add_one_block.
  - vm_compute. lia.
Defined.

Lemma repeated_inputs_stay_repeated_witness :
  at_index (inputs tgt_double 12) 0 = at_index (inputs tgt_double 12) 1.
Proof.
  apply (repeated_inputs_stay_repeated tgt_double tgt_double 10
           [double_match] double_match 12 12 0 1).
  - vm_compute. reflexivity.
  - apply list_elem_of_here.
  - reflexivity.
  - vm_compute. lia.
  - vm_compute. lia.
  - reflexivity.
Defined.
